(** * Blank-line padding between jest statements (src/rules/padding.ts)

    A shallow embedding of the padding rule of eslint-plugin-jest-formatting:
    the statement classifier, the scope tracker, the rule-table lookup, the
    "always" padding tester with its fixer, and the listeners the rule
    registers with the host's tree walker. *)

From Stdlib Require Import List String Ascii ZArith Bool Lia Permutation.
Import ListNotations.
Local Open Scope string_scope.
Local Open Scope list_scope.
Set Warnings "-register-all".

(** ** Errors

    A JavaScript [TypeError] (reading a property of [null] or [undefined])
    is the only failure the rule can raise; a computation that may raise it
    returns [option], with [None] for the error. *)

Notation "x <- e ;; k" :=
  (match e with Some x => k | None => None end)
    (at level 61, e at next level, right associativity).

(** ** ESTree nodes and ESLint tokens *)

(** A [Position]; the rule and its helpers read only the line. *)
Record Position := mkPosition { line : Z }.

Record SourceLocation := mkLoc { loc_start : Position; loc_end : Position }.

(** An [AST.Token] or a comment; comments have type ["Line"] or ["Block"]. *)
Record Token := mkToken {
  tok_type : string;
  value : string;
  tok_range : Z * Z;
  tok_loc : SourceLocation
}.

(** What every ESTree node carries. [parent] is the [type] of the node the
    host links as [node.parent]; only the program root has none. *)
Record NodeBase := mkBase {
  range : Z * Z;
  loc : SourceLocation;
  parent : option string
}.

(** A node of the tree. A labeled statement is the one node kind whose
    [body] the rule reads, and ESTree gives every labeled statement a body;
    every other node is its [type] string, which is never
    ["LabeledStatement"], and the child nodes the walker visits, in
    document order. *)
Inductive Node : Type :=
| LabeledStatement (base : NodeBase) (body : Node)
| OtherNode (ty : string) (base : NodeBase) (children : list Node).

Definition type (n : Node) : string :=
  match n with
  | LabeledStatement _ _ => "LabeledStatement"
  | OtherNode ty _ _ => ty
  end.

Definition base (n : Node) : NodeBase :=
  match n with
  | LabeledStatement b _ => b
  | OtherNode _ b _ => b
  end.

Definition children (n : Node) : list Node :=
  match n with
  | LabeledStatement _ body => [body]
  | OtherNode _ _ cs => cs
  end.

(** Induction over a tree, with the hypothesis for all the children. *)
Fixpoint Node_forall_ind (P : Node -> Prop)
  (HL : forall b body, P body -> P (LabeledStatement b body))
  (HO : forall ty b cs, Forall P cs -> P (OtherNode ty b cs))
  (n : Node) {struct n} : P n :=
  match n with
  | LabeledStatement b body => HL b body (Node_forall_ind P HL HO body)
  | OtherNode ty b cs =>
      HO ty b cs
        ((fix all (l : list Node) : Forall P l :=
            match l with
            | [] => Forall_nil P
            | x :: r => Forall_cons x (Node_forall_ind P HL HO x) (all r)
            end) cs)
  end.

(** [areTokensOnSameLine] and the token queries take a node or a token. *)
Inductive NodeOrToken : Type :=
| ofNode (n : Node)
| ofToken (t : Token).

Definition rangeOf (x : NodeOrToken) : Z * Z :=
  match x with
  | ofNode n => range (base n)
  | ofToken t => tok_range t
  end.

Definition locOf (x : NodeOrToken) : SourceLocation :=
  match x with
  | ofNode n => loc (base n)
  | ofToken t => tok_loc t
  end.

(** ** The host's token store (ESLint [SourceCode])

    The tokens and comments of the file in source order. *)
Record SourceCode := mkSourceCode { tokensAndComments : list Token }.

Definition isCommentToken (t : Token) : bool :=
  (tok_type t =? "Line") || (tok_type t =? "Block") || (tok_type t =? "Shebang").

Definition insideRange (inner outer : Z * Z) : bool :=
  (fst outer <=? fst inner)%Z && (snd inner <=? snd outer)%Z.

(** [sourceCode.getFirstToken(node)]: the first token (comments excluded)
    inside the node's range, [None] for JavaScript's [null]. *)
Definition getFirstToken (sourceCode : SourceCode) (node : Node) : option Token :=
  find (fun t => negb (isCommentToken t) && insideRange (tok_range t) (range (base node)))
       (tokensAndComments sourceCode).

(** The tokens and comments lying wholly between the end of [left] and the
    start of [right], as the cursor of [getFirstTokenBetween] with
    [includeComments: true] walks them. *)
Definition tokensBetween (sourceCode : SourceCode) (left right : NodeOrToken)
  : list Token :=
  filter (fun t => insideRange (tok_range t) (snd (rangeOf left), fst (rangeOf right)))
         (tokensAndComments sourceCode).

(** ** Statement and padding types *)

Module StatementType.
Inductive t : Type :=
| Any
| AfterAllToken
| AfterEachToken
| BeforeAllToken
| BeforeEachToken
| DescribeToken
| ExpectToken
| FdescribeToken
| FitToken
| ItToken
| TestToken
| XdescribeToken
| XitToken
| XtestToken.
End StatementType.

(** [StatementType | StatementType[]] *)
Inductive StatementTypes : Type :=
| Single (t : StatementType.t)
| Multiple (ts : list StatementType.t).

Module PaddingType.
Inductive t : Type :=
| Any
| Always.
End PaddingType.

Record Config := mkConfig {
  paddingType : PaddingType.t;
  prevStatementType : StatementTypes;
  nextStatementType : StatementTypes
}.

(** ** Reports and fixes *)

Record Fix := mkFix { fix_range : Z * Z; text : string }.

Record Report := mkReport {
  report_node : Node;
  message : string;
  report_fix : option Fix
}.

(** [fixer.insertTextAfter(token, text)] *)
Definition insertTextAfter (token : Token) (txt : string) : Fix :=
  mkFix (snd (tok_range token), snd (tok_range token)) txt.

Definition LF : string := String "010"%char EmptyString.

(** ** Scopes *)

Inductive Scope : Type :=
| mkScope (upper : option Scope) (prevNode : option Node).

Definition upper (s : Scope) : option Scope :=
  match s with mkScope u _ => u end.

Definition prevNode (s : Scope) : option Node :=
  match s with mkScope _ p => p end.

(** The mutable part of a rule instance: the [scope] variable closed over
    by [createScopeInfo] and the reports handed to [ruleContext.report]. *)
Record RuleState := mkState {
  scope : option Scope;
  reports : list Report
}.

(** The immutable part of [PaddingContext]. *)
Record PaddingContext := mkContext {
  sourceCode : SourceCode;
  configs : list Config
}.

(** ** createTokenTester and statementTesters *)

Definition createTokenTester (tokenName : string)
  (node : Node) (sourceCode : SourceCode) : option bool :=
  let token := getFirstToken sourceCode node in
  if type node =? "ExpressionStatement" then
    match token with
    | None => None
    | Some tk =>
        if tok_type tk =? "Identifier" then Some (value tk =? tokenName)
        else Some false
    end
  else Some false.

Definition statementTesters (t : StatementType.t)
  : Node -> SourceCode -> option bool :=
  match t with
  | StatementType.Any => fun _ _ => Some true
  | StatementType.AfterAllToken => createTokenTester "afterAll"
  | StatementType.AfterEachToken => createTokenTester "afterEach"
  | StatementType.BeforeAllToken => createTokenTester "beforeAll"
  | StatementType.BeforeEachToken => createTokenTester "beforeEach"
  | StatementType.DescribeToken => createTokenTester "describe"
  | StatementType.ExpectToken => createTokenTester "expect"
  | StatementType.FdescribeToken => createTokenTester "fdescribe"
  | StatementType.FitToken => createTokenTester "fit"
  | StatementType.ItToken => createTokenTester "it"
  | StatementType.TestToken => createTokenTester "test"
  | StatementType.XdescribeToken => createTokenTester "xdescribe"
  | StatementType.XitToken => createTokenTester "xit"
  | StatementType.XtestToken => createTokenTester "xtest"
  end.

(** The identifier each statement type stands for in [statementTesters];
    the wildcard has none. *)
Definition tokenName (t : StatementType.t) : option string :=
  match t with
  | StatementType.Any => None
  | StatementType.AfterAllToken => Some "afterAll"
  | StatementType.AfterEachToken => Some "afterEach"
  | StatementType.BeforeAllToken => Some "beforeAll"
  | StatementType.BeforeEachToken => Some "beforeEach"
  | StatementType.DescribeToken => Some "describe"
  | StatementType.ExpectToken => Some "expect"
  | StatementType.FdescribeToken => Some "fdescribe"
  | StatementType.FitToken => Some "fit"
  | StatementType.ItToken => Some "it"
  | StatementType.TestToken => Some "test"
  | StatementType.XdescribeToken => Some "xdescribe"
  | StatementType.XitToken => Some "xit"
  | StatementType.XtestToken => Some "xtest"
  end.

(** ** nodeMatchesType *)

(** The [while] loop that digs into [LabeledStatement] bodies. *)
Fixpoint innerStatementNode (node : Node) : Node :=
  match node with
  | LabeledStatement _ body => innerStatementNode body
  | OtherNode _ _ _ => node
  end.

(** [Array.prototype.some] with a callback that may throw. *)
Fixpoint some {A : Type} (f : A -> option bool) (l : list A) : option bool :=
  match l with
  | [] => Some false
  | x :: rest => b <- f x ;; if b then Some true else some f rest
  end.

(** A call on a single type: the loop, then the tester. This is also what
    each recursive call made for an array member runs. *)
Definition nodeMatchesSingle (node : Node) (t : StatementType.t)
  (sourceCode : SourceCode) : option bool :=
  statementTesters t (innerStatementNode node) sourceCode.

Definition nodeMatchesType (node : Node) (statementType : StatementTypes)
  (sourceCode : SourceCode) : option bool :=
  let inner := innerStatementNode node in
  match statementType with
  | Multiple ts => some (fun t => nodeMatchesSingle inner t sourceCode) ts
  | Single t => statementTesters t inner sourceCode
  end.

(** The condition of the [if] in the loop of [testPadding]; [&&] does not
    evaluate its right side when the left one is false. *)
Definition configMatches (c : Config) (prevNode nextNode : Node)
  (sourceCode : SourceCode) : option bool :=
  p <- nodeMatchesType prevNode (prevStatementType c) sourceCode ;;
  if p then nodeMatchesType nextNode (nextStatementType c) sourceCode
  else Some false.

(** ** createScopeInfo *)

(** [get prevNode()]: reads [scope.prevNode]; a [TypeError] while [scope]
    is still [null]. *)
Definition getPrevNode (st : RuleState) : option (option Node) :=
  match scope st with
  | None => None
  | Some s => Some (prevNode s)
  end.

(** [set prevNode(node)] *)
Definition setPrevNode (node : Node) (st : RuleState) : option RuleState :=
  match scope st with
  | None => None
  | Some s => Some (mkState (Some (mkScope (upper s) (Some node))) (reports st))
  end.

(** [enter()]: [scope = { upper: scope, prevNode: null }] *)
Definition enter (st : RuleState) : option RuleState :=
  Some (mkState (Some (mkScope (scope st) None)) (reports st)).

(** [exit()]: [scope = scope.upper] *)
Definition exit (st : RuleState) : option RuleState :=
  match scope st with
  | None => None
  | Some s => Some (mkState (upper s) (reports st))
  end.

(** [ruleContext.report(descriptor)] *)
Definition report (r : Report) (st : RuleState) : RuleState :=
  mkState (scope st) (reports st ++ [r]).

(** ** Shapes of trees and scope stacks *)

(** No node of type [Program] in the tree: a subtree below the root. *)
Fixpoint belowRoot (n : Node) : bool :=
  match n with
  | LabeledStatement _ body => belowRoot body
  | OtherNode ty _ cs => negb (ty =? "Program") && forallb belowRoot cs
  end.

(** The node types on which the rule pushes a scope and pops it again. *)
Definition opensScope (ty : string) : bool :=
  (ty =? "BlockStatement") || (ty =? "SwitchStatement") || (ty =? "SwitchCase").

(** The number of scopes on the stack. *)
Fixpoint depthFrom (s : Scope) : nat :=
  match s with
  | mkScope None _ => 1
  | mkScope (Some u) _ => S (depthFrom u)
  end.

Definition depth (st : RuleState) : nat :=
  match scope st with
  | None => 0
  | Some s => depthFrom s
  end.

(** The enclosing scopes of the current one. *)
Definition enclosing (st : RuleState) : option (option Scope) :=
  match scope st with
  | None => None
  | Some s => Some (upper s)
  end.

(** The first token of the statement under the labels of [n] can be
    read where a tester reads it. *)
Definition readable (sourceCode : SourceCode) (n : Node) : bool :=
  negb (type (innerStatementNode n) =? "ExpressionStatement")
  || match getFirstToken sourceCode (innerStatementNode n) with
     | Some _ => true
     | None => false
     end.

(** Every previous statement on the scope stack is readable. *)
Fixpoint readableScope (sourceCode : SourceCode) (s : Scope) : bool :=
  match s with
  | mkScope u p =>
      match p with
      | Some n => readable sourceCode n
      | None => true
      end
      && match u with
         | Some s' => readableScope sourceCode s'
         | None => true
         end
  end.

(** A rule instance inside the walk: it has a current scope. *)
Definition walking (sourceCode : SourceCode) (st : RuleState) : bool :=
  match scope st with
  | Some s => readableScope sourceCode s
  | None => false
  end.

(** ** The rule over its helpers

    [src/ast-utils.ts] is imported as [astUtils]; the rule is written
    against the four helpers it uses, which are parameters here. *)

Section Rule.

(** The element type of the array [getPaddingLineSequences] returns. *)
Variable PaddingLineSequence : Type.

Variable getPaddingLineSequences :
  Node -> Node -> SourceCode -> list PaddingLineSequence.
Variable getActualLastToken : SourceCode -> Node -> Token.
Variable areTokensOnSameLine : NodeOrToken -> NodeOrToken -> bool.
Variable isValidParent : string -> bool.

(** [getFirstTokenBetween] applied to the tokens between with the [filter]
    callback of the fixer: a token on the line of [prevToken] becomes the
    new [prevToken] and is skipped, the first other token is returned.
    The result pairs the final [prevToken] with the token found. *)
Fixpoint firstTokenFiltered (prevToken : Token) (tokens : list Token)
  : Token * option Token :=
  match tokens with
  | [] => (prevToken, None)
  | token :: rest =>
      if areTokensOnSameLine (ofToken prevToken) (ofToken token)
      then firstTokenFiltered token rest
      else (prevToken, Some token)
  end.

(** Every token of [tokens] is on the line of the one before it, and the
    first of them on the line of [prevToken]: trailing tokens. *)
Fixpoint trailing (prevToken : Token) (tokens : list Token) : bool :=
  match tokens with
  | [] => true
  | token :: rest =>
      areTokensOnSameLine (ofToken prevToken) (ofToken token)
      && trailing token rest
  end.

(** The [fix] callback of the report of [paddingAlwaysTester]. *)
Definition alwaysFix (prevNode nextNode : Node) (sourceCode : SourceCode) : Fix :=
  let prevToken0 := getActualLastToken sourceCode prevNode in
  let '(prevToken, found) :=
    firstTokenFiltered prevToken0
      (tokensBetween sourceCode (ofToken prevToken0) (ofNode nextNode)) in
  let nextToken :=
    match found with
    | Some token => ofToken token
    | None => ofNode nextNode
    end in
  let insertText :=
    if areTokensOnSameLine (ofToken prevToken) nextToken
    then (LF ++ LF)%string
    else LF in
  insertTextAfter prevToken insertText.

Definition paddingAlwaysTester (prevNode nextNode : Node)
  (paddingContext : PaddingContext) (st : RuleState) : option RuleState :=
  let paddingLines :=
    getPaddingLineSequences prevNode nextNode (sourceCode paddingContext) in
  if (0 <? List.length paddingLines)%nat then Some st
  else
    Some (report
            (mkReport nextNode "Expected blank line before this statement."
               (Some (alwaysFix prevNode nextNode (sourceCode paddingContext))))
            st).

Definition paddingTesters (t : PaddingType.t)
  : Node -> Node -> PaddingContext -> RuleState -> option RuleState :=
  match t with
  | PaddingType.Any => fun _ _ _ st => Some st
  | PaddingType.Always => paddingAlwaysTester
  end.

(** The loop of [testPadding], entered with [i + 1 = n]; it runs from
    [configs.length - 1] down to [0] and falls through to
    [PaddingType.Any]. *)
Fixpoint testPaddingFrom (n : nat) (prevNode nextNode : Node)
  (paddingContext : PaddingContext) (st : RuleState) : option RuleState :=
  let testType (t : PaddingType.t) :=
    paddingTesters t prevNode nextNode paddingContext st in
  match n with
  | O => testType PaddingType.Any
  | S i =>
      c <- nth_error (configs paddingContext) i ;;
      m <- configMatches c prevNode nextNode (sourceCode paddingContext) ;;
      if m then testType (paddingType c)
      else testPaddingFrom i prevNode nextNode paddingContext st
  end.

Definition testPadding (prevNode nextNode : Node)
  (paddingContext : PaddingContext) (st : RuleState) : option RuleState :=
  testPaddingFrom (List.length (configs paddingContext)) prevNode nextNode
    paddingContext st.

Definition verifyNode (node : Node) (paddingContext : PaddingContext)
  (st : RuleState) : option RuleState :=
  parentType <- parent (base node) ;;
  if negb (isValidParent parentType) then Some st
  else
    prev <- getPrevNode st ;;
    st1 <- match prev with
           | Some p => testPadding p node paddingContext st
           | None => Some st
           end ;;
    setPrevNode node st1.

(** ** The listeners of [createRule] and the host's walk *)

Definition endsWith (s suffix : string) : bool :=
  let n := String.length s in
  let m := String.length suffix in
  (m <=? n)%nat && (substring (n - m) m s =? suffix).

(** The [:statement] selector class: statements and declarations. *)
Definition isStatement (ty : string) : bool :=
  endsWith ty "Statement" || endsWith ty "Declaration".

(** The listeners fired on entering a node; [:statement] is the least
    specific selector and fires first. *)
Definition enterNode (node : Node) (paddingContext : PaddingContext)
  (st : RuleState) : option RuleState :=
  st1 <- (if isStatement (type node) then verifyNode node paddingContext st
          else Some st) ;;
  if type node =? "Program" then enter st1
  else if type node =? "BlockStatement" then enter st1
  else if type node =? "SwitchStatement" then enter st1
  else if type node =? "SwitchCase" then
    st2 <- verifyNode node paddingContext st1 ;; enter st2
  else Some st1.

(** The [:exit] listeners. *)
Definition leaveNode (node : Node) (st : RuleState) : option RuleState :=
  if type node =? "Program" then enter st
  else if type node =? "BlockStatement" then exit st
  else if type node =? "SwitchStatement" then exit st
  else if type node =? "SwitchCase" then exit st
  else Some st.

(** The depth-first walk of the host over a node and its children. *)
Fixpoint traverse (node : Node) (paddingContext : PaddingContext)
  (st : RuleState) {struct node} : option RuleState :=
  let traverseAll :=
    fix traverseAll (nodes : list Node) (st : RuleState) : option RuleState :=
      match nodes with
      | [] => Some st
      | n :: rest => st' <- traverse n paddingContext st ;; traverseAll rest st'
      end in
  st1 <- enterNode node paddingContext st ;;
  st2 <- match node with
         | LabeledStatement _ body => traverse body paddingContext st1
         | OtherNode _ _ cs => traverseAll cs st1
         end ;;
  leaveNode node st2.

Fixpoint traverseAll (nodes : list Node) (paddingContext : PaddingContext)
  (st : RuleState) : option RuleState :=
  match nodes with
  | [] => Some st
  | n :: rest =>
      st' <- traverse n paddingContext st ;; traverseAll rest paddingContext st'
  end.

(** A rule instance starts with [scope = null] and no report. *)
Definition initialState : RuleState := mkState None [].

Definition runRule (program : Node) (paddingContext : PaddingContext)
  : option RuleState :=
  traverse program paddingContext initialState.

(** The trees a parser hands to the walk: every statement and switch
    case has a parent and, where the rule looks at it, a readable first
    token. *)
Fixpoint walkable (sourceCode : SourceCode) (n : Node) : bool :=
  let here :=
    if isStatement (type n) || (type n =? "SwitchCase") then
      match parent (base n) with
      | Some pt => negb (isValidParent pt) || readable sourceCode n
      | None => false
      end
    else true in
  match n with
  | LabeledStatement _ body => here && walkable sourceCode body
  | OtherNode _ _ cs => here && forallb (walkable sourceCode) cs
  end.

(** What [walkable] asks of the node itself. *)
Definition visitable (sc : SourceCode) (node : Node) : Prop :=
  exists pt, parent (base node) = Some pt /\
             (isValidParent pt = true -> readable sc node = true).

(** The walk over the subtree at [node] ends, in a state fit to walk on. *)
Definition returns (node : Node) : Prop :=
  forall ctx st,
    belowRoot node = true ->
    walkable (sourceCode ctx) node = true ->
    walking (sourceCode ctx) st = true ->
    exists st', traverse node ctx st = Some st' /\
                walking (sourceCode ctx) st' = true.

(** Walking the subtree at [node] leaves the enclosing scopes as they
    were. *)
Definition keepsEnclosing (node : Node) : Prop :=
  forall ctx st st',
    belowRoot node = true -> traverse node ctx st = Some st' ->
    enclosing st' = enclosing st.

End Rule.

(** ** Rule-table lookup as the specification words it

    [resolve(prevNode, nextNode, table)]: scan the table from its last entry
    to its first and return the policy of the first rule that matches both
    sides, [Any] when none does. [testPadding] is compared with it below. *)

Fixpoint firstMatch (backward : list Config) (prevNode nextNode : Node)
  (sourceCode : SourceCode) : option PaddingType.t :=
  match backward with
  | [] => Some PaddingType.Any
  | c :: rest =>
      m <- configMatches c prevNode nextNode sourceCode ;;
      if m then Some (paddingType c)
      else firstMatch rest prevNode nextNode sourceCode
  end.

Definition resolve (prevNode nextNode : Node) (table : list Config)
  (sourceCode : SourceCode) : option PaddingType.t :=
  firstMatch (rev table) prevNode nextNode sourceCode.

(** ** The helpers of src/ast-utils.ts *)

Module AstUtils.

(** Modelled from the spec: [areTokensOnSameLine] of src/ast-utils.ts,
    which is not among the sources. "Given two tokens, report whether
    they lie on the same source line": the line on which [left] ends is
    the line on which [right] starts. *)
Definition areTokensOnSameLine (left right : NodeOrToken) : bool :=
  (line (loc_end (locOf left)) =? line (loc_start (locOf right)))%Z.

(** Modelled from the spec: [isValidParent] of src/ast-utils.ts, which is
    not among the sources. The parent type is "one of the recognized
    scope-introducing kinds": program root, block, switch statement and
    switch case. *)
Definition isValidParent (parentType : string) : bool :=
  existsb (String.eqb parentType)
    ["Program"; "BlockStatement"; "SwitchStatement"; "SwitchCase"].

(** [sourceCode.getLastToken(node)] of the host. *)
Definition getLastToken (sourceCode : SourceCode) (node : Node) : option Token :=
  find (fun t => negb (isCommentToken t)
                 && insideRange (tok_range t) (range (base node)))
       (rev (tokensAndComments sourceCode)).

(** Modelled from the spec: [getActualLastToken] of src/ast-utils.ts,
    which is not among the sources. "Given a node, return ... its last
    non-trivial token". A node that holds no token does not come out of
    a parser; an empty token at the node's end stands in for it. *)
Definition getActualLastToken (sourceCode : SourceCode) (node : Node) : Token :=
  match getLastToken sourceCode node with
  | Some t => t
  | None =>
      mkToken "" "" (snd (range (base node)), snd (range (base node)))
        (mkLoc (loc_end (loc (base node))) (loc_end (loc (base node))))
  end.

(** Modelled from the spec: the "blank-line run descriptor" that
    [getPaddingLineSequences] of src/ast-utils.ts returns, given by what
    precedes the run and what follows it. *)
Definition PaddingLineSequence : Type := (NodeOrToken * NodeOrToken)%type.

(** The line on which [right] starts minus the line on which [left]
    ends. *)
Definition linesApart (left right : NodeOrToken) : Z :=
  (line (loc_start (locOf right)) - line (loc_end (locOf left)))%Z.

(** Modelled from the spec: the walk of [getPaddingLineSequences] of
    src/ast-utils.ts over what follows [left]; two neighbours at least two
    lines apart have a run of blank lines between them. *)
Fixpoint blankRuns (left : NodeOrToken) (following : list NodeOrToken)
  : list PaddingLineSequence :=
  match following with
  | [] => []
  | next :: rest =>
      if (2 <=? linesApart left next)%Z
      then (left, next) :: blankRuns next rest
      else blankRuns next rest
  end.

(** Modelled from the spec: [getPaddingLineSequences] of
    src/ast-utils.ts, which is not among the sources. "Given two nodes,
    return the list of maximal blank-line run descriptors found textually
    between them", "strictly between the end of prevNode and the start of
    nextNode": walking from [prevNode] over the tokens and comments
    between the two nodes to [nextNode], every step that skips at least
    one whole line is a run. *)
Definition getPaddingLineSequences (prevNode nextNode : Node)
  (sourceCode : SourceCode) : list PaddingLineSequence :=
  blankRuns (ofNode prevNode)
    (map ofToken (tokensBetween sourceCode (ofNode prevNode) (ofNode nextNode))
     ++ [ofNode nextNode]).

End AstUtils.

(** ** Applying a fix

    Modelled from the spec: the fix/edit service of the host, which is not
    part of the sources. An edit is "insert this text immediately after the
    anchor token's end position"; the host applies it to the text and
    parses the result again. On positions: what starts at or after the
    offset [e] of the insertion moves by the length of the text and down by
    the number of line breaks in it; what ends at or before [e] stays. *)

Module Host.

(** The number of line breaks in an inserted text. *)
Fixpoint lineBreaks (s : string) : Z :=
  match s with
  | EmptyString => 0%Z
  | String c rest =>
      ((if Ascii.eqb c "010"%char then 1 else 0) + lineBreaks rest)%Z
  end.

(** Modelled from the spec: where the range [r] is after the insertion
    [f]. A start at or after the offset of the insertion moves, an end
    after it moves. *)
Definition movedRange (f : Fix) (r : Z * Z) : Z * Z :=
  let e := fst (fix_range f) in
  let len := Z.of_nat (String.length (text f)) in
  ((if (e <=? fst r)%Z then fst r + len else fst r)%Z,
   (if (e <? snd r)%Z then snd r + len else snd r)%Z).

(** Modelled from the spec: the lines of what has the range [r], after
    the insertion [f]. *)
Definition movedLoc (f : Fix) (r : Z * Z) (l : SourceLocation) : SourceLocation :=
  let e := fst (fix_range f) in
  let k := lineBreaks (text f) in
  mkLoc
    (mkPosition (if (e <=? fst r)%Z then line (loc_start l) + k
                 else line (loc_start l))%Z)
    (mkPosition (if (e <? snd r)%Z then line (loc_end l) + k
                 else line (loc_end l))%Z).

Definition movedToken (f : Fix) (t : Token) : Token :=
  mkToken (tok_type t) (value t)
    (movedRange f (tok_range t)) (movedLoc f (tok_range t) (tok_loc t)).

Definition movedBase (f : Fix) (b : NodeBase) : NodeBase :=
  mkBase (movedRange f (range b)) (movedLoc f (range b) (loc b)) (parent b).

Fixpoint movedNode (f : Fix) (n : Node) : Node :=
  match n with
  | LabeledStatement b body => LabeledStatement (movedBase f b) (movedNode f body)
  | OtherNode ty b cs => OtherNode ty (movedBase f b) (map (movedNode f) cs)
  end.

(** Modelled from the spec: the token store of the text with the
    insertion [f] applied. *)
Definition applyFix (f : Fix) (sourceCode : SourceCode) : SourceCode :=
  mkSourceCode (map (movedToken f) (tokensAndComments sourceCode)).

Definition startLine (x : NodeOrToken) : Z := line (loc_start (locOf x)).
Definition endLine (x : NodeOrToken) : Z := line (loc_end (locOf x)).

(** [a] lies wholly before [b], in offsets and in lines. *)
Definition before (a b : Token) : bool :=
  (snd (tok_range a) <=? fst (tok_range b))%Z
  && (endLine (ofToken a) <=? startLine (ofToken b))%Z.

(** A token is at least one character long. *)
Definition nonEmpty (t : Token) : bool :=
  (fst (tok_range t) <? snd (tok_range t))%Z.

(** The tokens and comments are in source order and do not overlap. *)
Fixpoint orderedTokens (ts : list Token) : bool :=
  match ts with
  | [] => true
  | t :: rest => nonEmpty t && forallb (before t) rest && orderedTokens rest
  end.

(** [node] ends where its last token ends. *)
Definition endsAtLastToken (sourceCode : SourceCode) (node : Node) : bool :=
  match AstUtils.getLastToken sourceCode node with
  | Some t =>
      (snd (tok_range t) =? snd (range (base node)))%Z
      && (endLine (ofToken t) =? endLine (ofNode node))%Z
  | None => false
  end.

(** [node] starts where its first token starts. *)
Definition startsAtFirstToken (sourceCode : SourceCode) (node : Node) : bool :=
  match getFirstToken sourceCode node with
  | Some t =>
      (fst (tok_range t) =? fst (range (base node)))%Z
      && (startLine (ofToken t) =? startLine (ofNode node))%Z
  | None => false
  end.

(** What a parser guarantees about the tokens and an adjacent pair of
    statements. *)
Definition wellFormed (sourceCode : SourceCode) (prevNode nextNode : Node) : bool :=
  orderedTokens (tokensAndComments sourceCode)
  && endsAtLastToken sourceCode prevNode
  && startsAtFirstToken sourceCode nextNode
  && (snd (range (base prevNode)) <=? fst (range (base nextNode)))%Z.

End Host.


(** ** A small source file

[[
foo(); // note
describe();
]]
    with its tokens, its one comment and its three nodes. *)

Module Sample.

Definition tok (ty v : string) (s e l : Z) : Token :=
  mkToken ty v (s, e) (mkLoc (mkPosition l) (mkPosition l)).

Definition note : Token := tok "Line" " note" 7 14 1.

Definition source : SourceCode :=
  mkSourceCode
    [ tok "Identifier" "foo" 0 3 1; tok "Punctuator" "(" 3 4 1;
      tok "Punctuator" ")" 4 5 1; tok "Punctuator" ";" 5 6 1;
      note;
      tok "Identifier" "describe" 15 23 2; tok "Punctuator" "(" 23 24 2;
      tok "Punctuator" ")" 24 25 2; tok "Punctuator" ";" 25 26 2 ].

Definition stmt (s e l : Z) (parentType : string) : Node :=
  OtherNode "ExpressionStatement"
    (mkBase (s, e) (mkLoc (mkPosition l) (mkPosition l)) (Some parentType)) [].

Definition fooCall : Node := stmt 0 6 1 "Program".
Definition describeCall : Node := stmt 15 26 2 "Program".

Definition program : Node :=
  OtherNode "Program"
    (mkBase (0, 26)%Z (mkLoc (mkPosition 1) (mkPosition 2)) None)
    [fooCall; describeCall].

(** The table of the deprecated rule [padding-before-describe-blocks]. *)
Definition beforeDescribe : list Config :=
  [ mkConfig PaddingType.Always (Single StatementType.Any) (Single StatementType.DescribeToken) ].

Definition context : PaddingContext := mkContext source beforeDescribe.

(** The same table with a later rule that overrides the first. *)
Definition overridden : list Config :=
  [ mkConfig PaddingType.Always (Single StatementType.Any) (Single StatementType.DescribeToken);
    mkConfig PaddingType.Any (Single StatementType.Any) (Single StatementType.DescribeToken) ].

(** The rule instance after the visit of [foo();] at the top level. *)
Definition afterFoo : RuleState :=
  mkState (Some (mkScope None (Some fooCall))) [].

(** The report on [describe();] and its fix: a line break after the
    comment. *)
Definition noteFix : Fix := mkFix (14, 14)%Z LF.

Definition describeReport : Report :=
  mkReport describeCall "Expected blank line before this statement."
    (Some noteFix).

(** The call as the body of an [if] and as a statement of a block. *)
Definition describeInIf : Node := stmt 15 26 2 "IfStatement".
Definition describeInBlock : Node := stmt 15 26 2 "BlockStatement".

(** The two calls on one line, [foo(); describe();]. *)
Definition oneLine : SourceCode :=
  mkSourceCode
    [ tok "Identifier" "foo" 0 3 1; tok "Punctuator" "(" 3 4 1;
      tok "Punctuator" ")" 4 5 1; tok "Punctuator" ";" 5 6 1;
      tok "Identifier" "describe" 7 15 1; tok "Punctuator" "(" 15 16 1;
      tok "Punctuator" ")" 16 17 1; tok "Punctuator" ";" 17 18 1 ].

Definition describeOnLine : Node := stmt 7 18 1 "Program".

(** The rule instance inside the program, before its first statement,
    and after the walk over the whole program. *)
Definition inProgram : RuleState := mkState (Some (mkScope None None)) [].

Definition afterProgram : RuleState :=
  mkState
    (Some (mkScope (Some (mkScope None (Some describeCall))) None))
    [describeReport].

(** [if (x) { describe(); }] at the top level, the condition left out. *)
Definition ifStatement : Node :=
  OtherNode "IfStatement"
    (mkBase (10, 31)%Z (mkLoc (mkPosition 2) (mkPosition 2)) (Some "Program"))
    [ OtherNode "BlockStatement"
        (mkBase (13, 31)%Z (mkLoc (mkPosition 2) (mkPosition 2))
           (Some "IfStatement"))
        [ describeInBlock ] ].

(** A file without any token and a statement in it. *)
Definition noTokens : SourceCode := mkSourceCode [].

Definition emptyStatement : Node :=
  OtherNode "EmptyStatement"
    (mkBase (0, 0)%Z (mkLoc (mkPosition 1) (mkPosition 1)) (Some "Program")) [].

(** An expression statement of that file: it has no first token. *)
Definition bareStatement : Node := stmt 0 0 1 "Program".

End Sample.

(** ** The tables of src/index.ts *)

Module Index.

Definition afterAll : list Config :=
  [ mkConfig PaddingType.Always (Single StatementType.Any)
      (Single StatementType.AfterAllToken);
    mkConfig PaddingType.Always (Single StatementType.AfterAllToken)
      (Single StatementType.Any) ].

Definition afterEach : list Config :=
  [ mkConfig PaddingType.Always (Single StatementType.Any)
      (Single StatementType.AfterEachToken);
    mkConfig PaddingType.Always (Single StatementType.AfterEachToken)
      (Single StatementType.Any) ].

Definition beforeAll : list Config :=
  [ mkConfig PaddingType.Always (Single StatementType.Any)
      (Single StatementType.BeforeAllToken);
    mkConfig PaddingType.Always (Single StatementType.BeforeAllToken)
      (Single StatementType.Any) ].

Definition beforeEach : list Config :=
  [ mkConfig PaddingType.Always (Single StatementType.Any)
      (Single StatementType.BeforeEachToken);
    mkConfig PaddingType.Always (Single StatementType.BeforeEachToken)
      (Single StatementType.Any) ].

Definition describe : list Config :=
  [ mkConfig PaddingType.Always (Single StatementType.Any)
      (Multiple [ StatementType.DescribeToken; StatementType.FdescribeToken;
                  StatementType.XdescribeToken ]);
    mkConfig PaddingType.Always
      (Multiple [ StatementType.DescribeToken; StatementType.FdescribeToken;
                  StatementType.XdescribeToken ])
      (Single StatementType.Any) ].

Definition expect : list Config :=
  [ mkConfig PaddingType.Always (Single StatementType.Any)
      (Single StatementType.ExpectToken);
    mkConfig PaddingType.Always (Single StatementType.ExpectToken)
      (Single StatementType.Any);
    mkConfig PaddingType.Any (Single StatementType.ExpectToken)
      (Single StatementType.ExpectToken) ].

Definition test : list Config :=
  [ mkConfig PaddingType.Always (Single StatementType.Any)
      (Multiple [ StatementType.TestToken; StatementType.ItToken;
                  StatementType.FitToken; StatementType.XitToken;
                  StatementType.XtestToken ]);
    mkConfig PaddingType.Always
      (Multiple [ StatementType.TestToken; StatementType.ItToken;
                  StatementType.FitToken; StatementType.XitToken;
                  StatementType.XtestToken ])
      (Single StatementType.Any) ].

(** [paddingConfigs], with its keys in the order they are written, which
    is the order [Object.keys] gives them in. *)
Definition paddingConfigs : list (string * list Config) :=
  [ ("afterAll", afterAll); ("afterEach", afterEach);
    ("beforeAll", beforeAll); ("beforeEach", beforeEach);
    ("describe", describe); ("expect", expect); ("test", test) ].

(** [[].concat(...Object.keys(paddingConfigs).map(k => paddingConfigs[k]))] *)
Definition aroundAll : list Config := List.concat (map snd paddingConfigs).

(** The rules that are not deprecated; a rule made by [createRule] is
    given by its table. *)
Definition currentRules : list (string * list Config) :=
  [ ("padding-around-after-all-blocks", afterAll);
    ("padding-around-after-each-blocks", afterEach);
    ("padding-around-before-all-blocks", beforeAll);
    ("padding-around-before-each-blocks", beforeEach);
    ("padding-around-describe-blocks", describe);
    ("padding-around-expect-groups", expect);
    ("padding-around-test-blocks", test);
    ("padding-around-all", aroundAll) ].

(** The rules marked [DEPRECATED]. *)
Definition deprecatedRules : list (string * list Config) :=
  [ ("padding-before-after-all-blocks",
     [ mkConfig PaddingType.Always (Single StatementType.Any)
         (Single StatementType.AfterAllToken) ]);
    ("padding-before-after-each-blocks",
     [ mkConfig PaddingType.Always (Single StatementType.Any)
         (Single StatementType.AfterEachToken) ]);
    ("padding-before-before-all-blocks",
     [ mkConfig PaddingType.Always (Single StatementType.Any)
         (Single StatementType.BeforeAllToken) ]);
    ("padding-before-before-each-blocks",
     [ mkConfig PaddingType.Always (Single StatementType.Any)
         (Single StatementType.BeforeEachToken) ]);
    ("padding-before-describe-blocks",
     [ mkConfig PaddingType.Always (Single StatementType.Any)
         (Single StatementType.DescribeToken) ]);
    ("padding-before-expect-statements",
     [ mkConfig PaddingType.Always (Single StatementType.Any)
         (Single StatementType.ExpectToken);
       mkConfig PaddingType.Any (Single StatementType.ExpectToken)
         (Single StatementType.ExpectToken) ]);
    ("padding-before-test-blocks",
     [ mkConfig PaddingType.Always (Single StatementType.Any)
         (Multiple [ StatementType.TestToken; StatementType.ItToken ]) ]);
    ("padding-before-all",
     [ mkConfig PaddingType.Always (Single StatementType.Any)
         (Multiple [ StatementType.AfterAllToken; StatementType.AfterEachToken;
                     StatementType.BeforeAllToken;
                     StatementType.BeforeEachToken;
                     StatementType.DescribeToken; StatementType.ExpectToken;
                     StatementType.ItToken; StatementType.TestToken ]);
       mkConfig PaddingType.Any (Single StatementType.ExpectToken)
         (Single StatementType.ExpectToken) ]) ].

(** The exported [rules]. *)
Definition rules : list (string * list Config) :=
  currentRules ++ deprecatedRules.

(** The [rules] entries of [configs.recommended] and [configs.strict]. *)
Definition recommended : list (string * Z) :=
  [ ("jest-formatting/padding-around-after-all-blocks", 2%Z);
    ("jest-formatting/padding-around-after-each-blocks", 2%Z);
    ("jest-formatting/padding-around-before-all-blocks", 2%Z);
    ("jest-formatting/padding-around-before-each-blocks", 2%Z);
    ("jest-formatting/padding-around-describe-blocks", 2%Z);
    ("jest-formatting/padding-around-test-blocks", 2%Z) ].

Definition strict : list (string * Z) :=
  [ ("jest-formatting/padding-around-all", 2%Z) ].

(** A property read on an object: the value of the first entry with the
    key. *)
Fixpoint lookup {A : Type} (key : string) (entries : list (string * A))
  : option A :=
  match entries with
  | [] => None
  | (k, v) :: rest => if k =? key then Some v else lookup key rest
  end.

(** The rule of this plugin that a name of the form
    [jest-formatting/<rule>] in a configuration stands for. *)
Definition pluginRule (name : string) : option (list Config) :=
  if prefix "jest-formatting/" name
  then lookup (substring 16 (String.length name - 16) name) rules
  else None.

End Index.

(** ** Statement kinds

    A tester looks at the type of the statement and at its first token
    only; [kindOf] is the named statement type, if any, whose identifier
    the statement starts with. *)

Definition namedTypes : list StatementType.t :=
  [ StatementType.AfterAllToken; StatementType.AfterEachToken;
    StatementType.BeforeAllToken; StatementType.BeforeEachToken;
    StatementType.DescribeToken; StatementType.ExpectToken;
    StatementType.FdescribeToken; StatementType.FitToken;
    StatementType.ItToken; StatementType.TestToken;
    StatementType.XdescribeToken; StatementType.XitToken;
    StatementType.XtestToken ].

Definition named (v : string) : option StatementType.t :=
  find (fun t => match tokenName t with
                 | Some name => v =? name
                 | None => false
                 end) namedTypes.

Definition kindOf (sourceCode : SourceCode) (n : Node) : option StatementType.t :=
  let inner := innerStatementNode n in
  if type inner =? "ExpressionStatement" then
    match getFirstToken sourceCode inner with
    | Some tk => if tok_type tk =? "Identifier" then named (value tk) else None
    | None => None
    end
  else None.

Definition sameType (a b : StatementType.t) : bool :=
  match tokenName a, tokenName b with
  | Some x, Some y => x =? y
  | None, None => true
  | _, _ => false
  end.

Definition matchesKind (k : option StatementType.t) (t : StatementType.t) : bool :=
  match tokenName t with
  | None => true
  | Some _ => match k with
              | Some t' => sameType t' t
              | None => false
              end
  end.

Definition matchesKinds (k : option StatementType.t) (ts : StatementTypes) : bool :=
  match ts with
  | Single t => matchesKind k t
  | Multiple l => existsb (matchesKind k) l
  end.

Definition configMatchesKinds (kp kn : option StatementType.t) (c : Config) : bool :=
  matchesKinds kp (prevStatementType c) && matchesKinds kn (nextStatementType c).

(** The backward scan of a table on kinds. *)
Fixpoint firstMatchKinds (backward : list Config)
  (kp kn : option StatementType.t) : PaddingType.t :=
  match backward with
  | [] => PaddingType.Any
  | c :: rest =>
      if configMatchesKinds kp kn c then paddingType c
      else firstMatchKinds rest kp kn
  end.

Definition isAlways (t : PaddingType.t) : bool :=
  match t with
  | PaddingType.Always => true
  | PaddingType.Any => false
  end.

(** The scan of a table on kinds asks for a blank line. *)
Definition padsKinds (kp kn : option StatementType.t) (table : list Config) : bool :=
  isAlways (firstMatchKinds (rev table) kp kn).

(** ** Trees and reports *)

(** The nodes of a tree, in the order the walk enters them. *)
Fixpoint nodes (n : Node) : list Node :=
  n :: match n with
       | LabeledStatement _ body => nodes body
       | OtherNode _ _ cs => flat_map nodes cs
       end.

Definition parentIs (ty : string) (child : Node) : bool :=
  match parent (base child) with
  | Some pt => pt =? ty
  | None => false
  end.

(** The host has linked every child to its parent. *)
Fixpoint linked (n : Node) : bool :=
  match n with
  | LabeledStatement _ body => parentIs "LabeledStatement" body && linked body
  | OtherNode ty _ cs => forallb (fun c => parentIs ty c && linked c) cs
  end.

(** The text of a fix of this rule: one line break or two. *)
Definition lineBreakText (s : string) : bool :=
  (s =? LF) || (s =? (LF ++ LF)%string).

(** A fix that only inserts line breaks. *)
Definition insertsLineBreaks (f : Fix) : bool :=
  (fst (fix_range f) =? snd (fix_range f))%Z && lineBreakText (text f).

Section Reports.

Variable PaddingLineSequence : Type.
Variable getPaddingLineSequences :
  Node -> Node -> SourceCode -> list PaddingLineSequence.
Variable getActualLastToken : SourceCode -> Node -> Token.
Variable areTokensOnSameLine : NodeOrToken -> NodeOrToken -> bool.
Variable isValidParent : string -> bool.

(** What is known of a report the walk over [visited] adds: it is on a
    visited statement with a valid parent, carries the message, and comes
    from a previous statement for which the table asks for a blank line
    and finds none, with the fix for that pair, which inserts line breaks
    and nothing else. *)
Definition reportedBy (paddingContext : PaddingContext) (visited : list Node)
  (r : Report) : Prop :=
  In (report_node r) visited /\
  message r = "Expected blank line before this statement." /\
  (exists pt, parent (base (report_node r)) = Some pt /\
              isValidParent pt = true) /\
  exists p f,
    resolve p (report_node r) (configs paddingContext)
      (sourceCode paddingContext) = Some PaddingType.Always /\
    getPaddingLineSequences p (report_node r) (sourceCode paddingContext) = [] /\
    f = alwaysFix getActualLastToken areTokensOnSameLine p (report_node r) (sourceCode paddingContext) /\
    report_fix r = Some f /\
    insertsLineBreaks f = true.

(** What the walk over [visited] adds to the reports: it appends, only
    reports of the kind above, and no more of them than nodes. *)
Definition adds (ctx : PaddingContext) (visited : list Node)
  (st st' : RuleState) : Prop :=
  exists added,
    reports st' = reports st ++ added /\
    Forall (reportedBy ctx visited) added /\
    List.length added <= List.length visited.

(** Every node whose type is a valid parent opens a scope of its own. *)
Definition validParentsOpenScopes (n : Node) : bool :=
  forallb (fun m => negb (isValidParent (type m)) || opensScope (type m))
    (nodes n).

(** What the listeners do on [node] itself, [enter] apart: [verifyNode],
    once, on a statement or a switch case. *)
Definition ownStep (node : Node) (ctx : PaddingContext) (st : RuleState)
  : option RuleState :=
  if isStatement (type node) || (type node =? "SwitchCase")
  then verifyNode PaddingLineSequence getPaddingLineSequences
         getActualLastToken areTokensOnSameLine isValidParent node ctx st
  else Some st.

(** After the walk over [node] the current scope is the one its own step
    left. *)
Definition scopeExact (node : Node) : Prop :=
  forall ctx st st',
    belowRoot node = true -> linked node = true ->
    validParentsOpenScopes node = true ->
    traverse PaddingLineSequence getPaddingLineSequences
      getActualLastToken areTokensOnSameLine isValidParent node ctx st
    = Some st' ->
    exists st1, ownStep node ctx st = Some st1 /\ scope st' = scope st1.

End Reports.

(** * Properties *)

(** ** The statement classifier *)

Lemma innerStatementNode_plain (node : Node) :
  exists ty b cs, innerStatementNode node = OtherNode ty b cs.
Proof.
  induction node as [b body IH | ty b cs].
  - exact IH.
  - now exists ty, b, cs.
Qed.

Lemma innerStatementNode_idem (node : Node) :
  innerStatementNode (innerStatementNode node) = innerStatementNode node.
Proof.
  destruct (innerStatementNode_plain node) as (ty & b & cs & E).
  now rewrite E.
Qed.

Lemma statementTesters_named (t : StatementType.t) (name : string) :
  tokenName t = Some name -> statementTesters t = createTokenTester name.
Proof. destruct t; simpl; intros E; inversion E; reflexivity. Qed.

Lemma tokenName_named (t : StatementType.t) :
  t <> StatementType.Any -> exists name, tokenName t = Some name.
Proof. destruct t; intros H; try congruence; eexists; reflexivity. Qed.

Lemma createTokenTester_true (name : string) (node : Node) (sc : SourceCode) :
  createTokenTester name node sc = Some true <->
  type node = "ExpressionStatement" /\
  exists tk, getFirstToken sc node = Some tk /\
             tok_type tk = "Identifier" /\ value tk = name.
Proof.
  unfold createTokenTester.
  destruct (String.eqb_spec (type node) "ExpressionStatement") as [Ety | Ety].
  - destruct (getFirstToken sc node) as [tk |].
    + destruct (String.eqb_spec (tok_type tk) "Identifier") as [Eid | Eid].
      * destruct (String.eqb_spec (value tk) name) as [Ev | Ev]; split.
        -- intros _. split; [assumption | now exists tk].
        -- reflexivity.
        -- discriminate.
        -- intros (_ & tk' & Etk & _ & Ev'). congruence.
      * split; [discriminate | intros (_ & tk' & Etk & Eid' & _); congruence].
    + split; [discriminate | intros (_ & tk' & Etk & _); discriminate].
  - split; [discriminate | intros (Ety' & _); contradiction].
Qed.

Lemma createTokenTester_undefined (name : string) (node : Node) (sc : SourceCode) :
  createTokenTester name node sc = None <->
  type node = "ExpressionStatement" /\ getFirstToken sc node = None.
Proof.
  unfold createTokenTester.
  destruct (String.eqb_spec (type node) "ExpressionStatement") as [Ety | Ety].
  - destruct (getFirstToken sc node) as [tk |].
    + destruct (tok_type tk =? "Identifier");
        (split; [discriminate | intros (_ & E); discriminate]).
    + split; [now split | reflexivity].
  - split; [discriminate | intros (Ety' & _); contradiction].
Qed.

Lemma some_true_member {A : Type} (f : A -> option bool) (l : list A) :
  some f l = Some true -> exists x, In x l /\ f x = Some true.
Proof.
  induction l as [| x rest IH]; simpl; [discriminate |].
  destruct (f x) as [[|] |] eqn:Ex; [| | discriminate].
  - intros _. exists x. auto.
  - intros E. destruct (IH E) as (y & Hy & Ey). exists y. auto.
Qed.

Lemma some_member_true {A : Type} (f : A -> option bool) (l : list A) :
  (forall x, In x l -> f x <> None) ->
  (exists x, In x l /\ f x = Some true) -> some f l = Some true.
Proof.
  induction l as [| x rest IH]; intros Hdef; simpl.
  - intros (x & [] & _).
  - destruct (f x) as [[|] |] eqn:Ex.
    + reflexivity.
    + intros (y & [-> | Hy] & Ey); [congruence |].
      apply IH; [intros z Hz; apply Hdef; now right | now exists y].
    + exfalso. apply (Hdef x); [now left | exact Ex].
Qed.

(** A tester raises no error on a node whose first token can be read. *)
Lemma statementTesters_defined (t : StatementType.t) (node : Node)
  (sc : SourceCode) :
  (type node = "ExpressionStatement" -> getFirstToken sc node <> None) ->
  statementTesters t node sc <> None.
Proof.
  intros Hread.
  destruct (tokenName t) as [name |] eqn:En.
  - rewrite (statementTesters_named t name En). intros E.
    apply createTokenTester_undefined in E. destruct E as [Ety Etk].
    now apply Hread.
  - destruct t; try discriminate En. discriminate.
Qed.

Lemma some_defined {A : Type} (f : A -> option bool) (l : list A) :
  (forall x, In x l -> f x <> None) -> some f l <> None.
Proof.
  induction l as [| x rest IH]; intros Hdef; simpl; [discriminate |].
  destruct (f x) as [[|] |] eqn:Ex.
  - discriminate.
  - apply IH. intros y Hy. apply Hdef. now right.
  - exfalso. apply (Hdef x); [now left | exact Ex].
Qed.

Lemma readable_first_token (sc : SourceCode) (n : Node) :
  readable sc n = true ->
  type (innerStatementNode n) = "ExpressionStatement" ->
  getFirstToken sc (innerStatementNode n) <> None.
Proof.
  unfold readable. intros H Ety. rewrite Ety in H. cbn in H.
  now destruct (getFirstToken sc (innerStatementNode n)).
Qed.

(** No test raises an error on a readable node. *)
Lemma nodeMatchesType_defined (sc : SourceCode) (n : Node) ts :
  readable sc n = true -> nodeMatchesType n ts sc <> None.
Proof.
  intros Hr. pose proof (readable_first_token sc n Hr) as Hread.
  unfold nodeMatchesType. destruct ts as [t | l].
  - now apply statementTesters_defined.
  - apply some_defined. intros t _. unfold nodeMatchesSingle.
    rewrite innerStatementNode_idem. now apply statementTesters_defined.
Qed.

Lemma firstMatch_defined (sc : SourceCode) (p n : Node) (l : list Config) :
  readable sc p = true -> readable sc n = true ->
  exists policy, firstMatch l p n sc = Some policy.
Proof.
  intros Hp Hn. induction l as [| c r IH]; [now exists PaddingType.Any |].
  cbn [firstMatch]. unfold configMatches.
  pose proof (nodeMatchesType_defined sc p (prevStatementType c) Hp) as Dp.
  pose proof (nodeMatchesType_defined sc n (nextStatementType c) Hn) as Dn.
  destruct (nodeMatchesType p (prevStatementType c) sc) as [[|] |];
    [| exact IH | contradiction].
  destruct (nodeMatchesType n (nextStatementType c) sc) as [[|] |];
    [now exists (paddingType c) | exact IH | contradiction].
Qed.

(** [some] answers [true] exactly at the first element that does, all the
    elements before it having answered [false]. *)
Lemma some_true_first {A : Type} (f : A -> option bool) (l : list A) :
  some f l = Some true <->
  exists pre x post, l = pre ++ x :: post /\ f x = Some true /\
                     forall u, In u pre -> f u = Some false.
Proof.
  induction l as [| y rest IH]; simpl.
  - split; [discriminate |].
    intros (pre & x & post & E & _). now destruct pre.
  - destruct (f y) as [[|] |] eqn:Ey.
    + split; [| reflexivity]. intros _.
      exists [], y, rest. repeat split; [exact Ey | intros u []].
    + rewrite IH. split.
      * intros (pre & x & post & -> & Ex & Hpre).
        exists (y :: pre), x, post. repeat split; [exact Ex |].
        intros u [<- | Hu]; [exact Ey | now apply Hpre].
      * intros (pre & x & post & E & Ex & Hpre).
        destruct pre as [| z pre]; simpl in E; inversion E; subst.
        -- congruence.
        -- exists pre, x, post. repeat split; [exact Ex |].
           intros u Hu. apply Hpre. now right.
    + split; [discriminate |].
      intros (pre & x & post & E & Ex & Hpre).
      destruct pre as [| z pre]; simpl in E; inversion E; subst.
      * congruence.
      * specialize (Hpre z (or_introl eq_refl)). congruence.
Qed.

(** C6, as the code has it. The wildcard type matches every node. A named
    type matches exactly when the innermost statement under the labels,
    which is not itself a labeled statement, is an expression statement
    whose first token is an identifier with the name of the type. An array
    of types is tested member by member, in order, on that innermost
    statement, on which the loop over labels has nothing left to do. It
    matches exactly when one of its members matches and every member
    before that one has answered [false]; a member that fails before a
    matching one is reached makes the whole test fail. When the first
    token of the statement can be read no member fails, and the array
    matches exactly when one of its members does. On an expression
    statement without a first token every named member fails: the empty
    array answers [false], an array that starts with the wildcard matches,
    and an array that starts with a named type fails, whatever follows. *)
Theorem nodeMatchesType_classifies (node : Node) (sc : SourceCode) :
  let inner := innerStatementNode node in
  (forall b body, inner <> LabeledStatement b body) /\
  innerStatementNode inner = inner /\
  nodeMatchesType node (Single StatementType.Any) sc = Some true /\
  (forall t name, tokenName t = Some name ->
     (nodeMatchesType node (Single t) sc = Some true <->
      type inner = "ExpressionStatement" /\
      exists tk, getFirstToken sc inner = Some tk /\
                 tok_type tk = "Identifier" /\ value tk = name)) /\
  (forall ts,
     nodeMatchesType node (Multiple ts) sc
     = some (fun t => nodeMatchesType inner (Single t) sc) ts /\
     (nodeMatchesType node (Multiple ts) sc = Some true <->
      exists pre t post,
        ts = pre ++ t :: post /\
        nodeMatchesType inner (Single t) sc = Some true /\
        forall u, In u pre -> nodeMatchesType inner (Single u) sc = Some false) /\
     ((type inner = "ExpressionStatement" -> getFirstToken sc inner <> None) ->
      (nodeMatchesType node (Multiple ts) sc = Some true <->
       exists t, In t ts /\ nodeMatchesType inner (Single t) sc = Some true)) /\
     (type inner = "ExpressionStatement" -> getFirstToken sc inner = None ->
      nodeMatchesType node (Multiple ts) sc
      = match ts with
        | [] => Some false
        | StatementType.Any :: _ => Some true
        | _ :: _ => None
        end)).
Proof.
  intros inner. subst inner.
  split; [| split; [| split; [| split]]].
  - intros b body E.
    destruct (innerStatementNode_plain node) as (ty & b' & cs & E').
    congruence.
  - apply innerStatementNode_idem.
  - reflexivity.
  - intros t name Hname. unfold nodeMatchesType.
    rewrite (statementTesters_named t name Hname).
    apply createTokenTester_true.
  - intros ts. unfold nodeMatchesType, nodeMatchesSingle.
    rewrite !innerStatementNode_idem.
    split; [reflexivity |]. split; [apply some_true_first |]. split.
    + intros Hread. split.
      * apply some_true_member.
      * apply some_member_true.
        intros t _. now apply statementTesters_defined.
    + intros Ety Etk. destruct ts as [| t rest]; [reflexivity |].
      cbn [some].
      destruct (tokenName t) as [name |] eqn:En.
      * rewrite (statementTesters_named t name En).
        assert (createTokenTester name (innerStatementNode node) sc = None)
          as -> by (apply createTokenTester_undefined; now split).
        destruct t; try reflexivity. discriminate En.
      * destruct t; try discriminate En. reflexivity.
Qed.

Lemma nodeMatchesType_classifies_witness :
  nodeMatchesType Sample.describeCall (Multiple [StatementType.ItToken; StatementType.DescribeToken])
    Sample.source = Some true.
Proof.
  apply (proj2 (proj1 (proj2 (proj2
           (proj2 (proj2 (proj2 (proj2
              (nodeMatchesType_classifies Sample.describeCall Sample.source))))
              [StatementType.ItToken; StatementType.DescribeToken])))
           ltac:(intros _; vm_compute; discriminate))).
  exists StatementType.DescribeToken. split; [right; left; reflexivity | reflexivity].
Defined.

(** C6, as stated, fails: on an expression statement without a first token
    the wildcard member of an array matches, and the array does not,
    the named member before it having failed. *)
Lemma nodeMatchesType_array_fails_before_match :
  let ts := [StatementType.DescribeToken; StatementType.Any] in
  type (innerStatementNode Sample.bareStatement) = "ExpressionStatement" /\
  getFirstToken Sample.noTokens (innerStatementNode Sample.bareStatement)
  = None /\
  In StatementType.Any ts /\
  nodeMatchesType (innerStatementNode Sample.bareStatement)
    (Single StatementType.Any) Sample.noTokens = Some true /\
  nodeMatchesType Sample.bareStatement (Multiple ts) Sample.noTokens = None /\
  ~ (nodeMatchesType Sample.bareStatement (Multiple ts) Sample.noTokens
     = Some true <->
     exists t, In t ts /\
       nodeMatchesType (innerStatementNode Sample.bareStatement) (Single t)
         Sample.noTokens = Some true).
Proof.
  repeat split; try reflexivity.
  - right; left; reflexivity.
  - intros [_ H].
    assert (@None bool = Some true) as E; [| discriminate E].
    apply H. exists StatementType.Any.
    split; [right; left; reflexivity | reflexivity].
Qed.

(** C10, as the code has it. The tester reads the first token before it
    looks at the node, and it fails exactly on an expression statement
    that has no first token; on any other node it answers [false], with
    or without a token. *)
Theorem createTokenTester_total_unless (name : string) (node : Node)
  (sc : SourceCode) :
  (createTokenTester name node sc = None <->
   type node = "ExpressionStatement" /\ getFirstToken sc node = None) /\
  (type node <> "ExpressionStatement" ->
   createTokenTester name node sc = Some false).
Proof.
  split.
  - apply createTokenTester_undefined.
  - intros Hty. unfold createTokenTester.
    destruct (String.eqb_spec (type node) "ExpressionStatement");
      [contradiction | reflexivity].
Qed.

Lemma createTokenTester_total_unless_witness :
  createTokenTester "describe" Sample.emptyStatement Sample.source = Some false.
Proof.
  apply (proj2 (createTokenTester_total_unless "describe"
                  Sample.emptyStatement Sample.source)).
  vm_compute. discriminate.
Defined.

(** C10, as stated, fails: a node without a first token that is not an
    expression statement is answered with [false]. *)
Lemma createTokenTester_no_token_false :
  getFirstToken Sample.noTokens Sample.emptyStatement = None /\
  createTokenTester "describe" Sample.emptyStatement Sample.noTokens
  = Some false.
Proof. split; reflexivity. Qed.


(** ** The scope tracker *)

Lemma exit_enter (st : RuleState) :
  (st1 <- enter st ;; exit st1) = Some st.
Proof. destruct st; reflexivity. Qed.

Lemma enter_fresh (st st1 : RuleState) :
  enter st = Some st1 ->
  getPrevNode st1 = Some None /\ enclosing st1 = Some (scope st) /\
  reports st1 = reports st.
Proof. intros E. inversion E. repeat split. Qed.

Lemma setPrevNode_enclosing (node : Node) (st st1 : RuleState) :
  setPrevNode node st = Some st1 ->
  getPrevNode st1 = Some (Some node) /\ enclosing st1 = enclosing st /\
  reports st1 = reports st.
Proof.
  unfold setPrevNode, getPrevNode, enclosing.
  destruct (scope st) as [s |]; [| discriminate].
  intros E. inversion E. repeat split.
Qed.

Lemma exit_enclosing (st st1 : RuleState) :
  exit st = Some st1 -> enclosing st = Some (scope st1).
Proof.
  unfold exit, enclosing. destruct (scope st) as [s |]; [| discriminate].
  intros E. now inversion E.
Qed.

(** ** The rule *)

Section RuleProperties.

Variable PaddingLineSequence : Type.
Variable getPaddingLineSequences :
  Node -> Node -> SourceCode -> list PaddingLineSequence.
Variable getActualLastToken : SourceCode -> Node -> Token.
Variable areTokensOnSameLine : NodeOrToken -> NodeOrToken -> bool.
Variable isValidParent : string -> bool.

Local Abbreviation alwaysFix :=
  (alwaysFix getActualLastToken areTokensOnSameLine).
Local Abbreviation firstTokenFiltered :=
  (firstTokenFiltered areTokensOnSameLine).
Local Abbreviation trailing := (trailing areTokensOnSameLine).
Local Abbreviation paddingAlwaysTester :=
  (paddingAlwaysTester PaddingLineSequence getPaddingLineSequences
     getActualLastToken areTokensOnSameLine).
Local Abbreviation paddingTesters :=
  (paddingTesters PaddingLineSequence getPaddingLineSequences
     getActualLastToken areTokensOnSameLine).
Local Abbreviation testPaddingFrom :=
  (testPaddingFrom PaddingLineSequence getPaddingLineSequences
     getActualLastToken areTokensOnSameLine).
Local Abbreviation testPadding :=
  (testPadding PaddingLineSequence getPaddingLineSequences
     getActualLastToken areTokensOnSameLine).
Local Abbreviation verifyNode :=
  (verifyNode PaddingLineSequence getPaddingLineSequences
     getActualLastToken areTokensOnSameLine isValidParent).
Local Abbreviation enterNode :=
  (enterNode PaddingLineSequence getPaddingLineSequences
     getActualLastToken areTokensOnSameLine isValidParent).
Local Abbreviation traverse :=
  (traverse PaddingLineSequence getPaddingLineSequences
     getActualLastToken areTokensOnSameLine isValidParent).
Local Abbreviation traverseAll :=
  (traverseAll PaddingLineSequence getPaddingLineSequences
     getActualLastToken areTokensOnSameLine isValidParent).
Local Abbreviation keepsEnclosing :=
  (keepsEnclosing PaddingLineSequence getPaddingLineSequences
     getActualLastToken areTokensOnSameLine isValidParent).
Local Abbreviation walkable := (walkable isValidParent).
Local Abbreviation visitable := (visitable isValidParent).
Local Abbreviation returns :=
  (returns PaddingLineSequence getPaddingLineSequences
     getActualLastToken areTokensOnSameLine isValidParent).

(** *** Rule-table lookup *)

Lemma paddingTesters_scope t p n ctx st st1 :
  paddingTesters t p n ctx st = Some st1 -> scope st1 = scope st.
Proof.
  destruct t; simpl.
  - intros E. now inversion E.
  - unfold paddingAlwaysTester.
    destruct (0 <? _)%nat; intros E; now inversion E.
Qed.

Lemma firstn_snoc {A : Type} (l : list A) (i : nat) (c : A) :
  nth_error l i = Some c -> firstn (S i) l = firstn i l ++ [c].
Proof.
  revert i. induction l as [| x r IH]; intros [| i] E; simpl in *;
    try discriminate.
  - now inversion E.
  - f_equal. now apply IH.
Qed.

Lemma testPaddingFrom_firstMatch n p nx ctx st :
  n <= List.length (configs ctx) ->
  testPaddingFrom n p nx ctx st =
  (policy <- firstMatch (rev (firstn n (configs ctx))) p nx (sourceCode ctx) ;;
   paddingTesters policy p nx ctx st).
Proof.
  induction n as [| i IH]; intros Hn.
  - reflexivity.
  - destruct (nth_error (configs ctx) i) as [c |] eqn:Ec.
    + rewrite (firstn_snoc _ _ _ Ec), rev_app_distr.
      cbn [rev app firstMatch].
      cbn [testPaddingFrom]. rewrite Ec.
      destruct (configMatches c p nx (sourceCode ctx)) as [[|] |];
        try reflexivity.
      apply IH. lia.
    + apply nth_error_None in Ec. lia.
Qed.

Lemma testPadding_resolve p nx ctx st :
  testPadding p nx ctx st =
  (policy <- resolve p nx (configs ctx) (sourceCode ctx) ;;
   paddingTesters policy p nx ctx st).
Proof.
  unfold testPadding, resolve.
  rewrite <- (firstn_all (configs ctx)) at 2.
  now apply testPaddingFrom_firstMatch.
Qed.

Lemma testPadding_scope p nx ctx st st1 :
  testPadding p nx ctx st = Some st1 -> scope st1 = scope st.
Proof.
  rewrite testPadding_resolve.
  destruct (resolve _ _ _ _) as [policy |]; [| discriminate].
  apply paddingTesters_scope.
Qed.

(** Rules that fail to match at the end of a table do not count. *)
Lemma firstMatch_skip (later : list Config) c earlier p nx sc :
  (forall c', In c' later -> configMatches c' p nx sc = Some false) ->
  firstMatch (rev (earlier ++ c :: later)) p nx sc =
  firstMatch (c :: rev earlier) p nx sc.
Proof.
  intros Hlater. rewrite rev_app_distr. cbn [rev].
  rewrite <- app_assoc. cbn [app].
  assert (Hrev : forall c', In c' (rev later) ->
                            configMatches c' p nx sc = Some false)
    by (intros c' Hc; apply Hlater; now apply in_rev).
  clear Hlater. induction (rev later) as [| d r IH]; [reflexivity |].
  cbn [app firstMatch]. rewrite (Hrev d) by now left.
  apply IH. intros c' Hc. apply Hrev. now right.
Qed.

Lemma nth_error_split_at {A : Type} (l : list A) (i : nat) (c : A) :
  nth_error l i = Some c ->
  l = firstn i l ++ c :: skipn (S i) l.
Proof.
  revert i. induction l as [| x r IH]; intros [| i] E; simpl in *;
    try discriminate.
  - now inversion E.
  - f_equal. now apply IH.
Qed.

Lemma in_skipn_nth {A : Type} (l : list A) (i : nat) (x : A) :
  In x (skipn (S i) l) ->
  exists j, i < j /\ nth_error l j = Some x.
Proof.
  intros Hin. apply In_nth_error in Hin. destruct Hin as (k & Ek).
  exists (S i + k). split; [lia |].
  rewrite <- Ek. symmetry. apply nth_error_skipn.
Qed.

(** *** verifyNode *)

Lemma verifyNode_invalid node ctx st pt :
  parent (base node) = Some pt -> isValidParent pt = false ->
  verifyNode node ctx st = Some st.
Proof. intros Ep Ev. unfold verifyNode. now rewrite Ep, Ev. Qed.

Lemma verifyNode_valid node ctx st pt s :
  parent (base node) = Some pt -> isValidParent pt = true ->
  scope st = Some s ->
  verifyNode node ctx st =
  (st1 <- match prevNode s with
          | Some p => testPadding p node ctx st
          | None => Some st
          end ;;
   Some (mkState (Some (mkScope (upper s) (Some node))) (reports st1))).
Proof.
  intros Ep Ev Es. unfold verifyNode, getPrevNode. rewrite Ep, Ev, Es.
  cbn [negb]. destruct (prevNode s) as [p |].
  - destruct (testPadding p node ctx st) as [st1 |] eqn:Et; [| reflexivity].
    unfold setPrevNode. now rewrite (testPadding_scope _ _ _ _ _ Et), Es.
  - unfold setPrevNode. now rewrite Es.
Qed.

Lemma verifyNode_enclosing node ctx st st1 :
  verifyNode node ctx st = Some st1 -> enclosing st1 = enclosing st.
Proof.
  destruct (parent (base node)) as [pt |] eqn:Ep;
    [| unfold verifyNode; rewrite Ep; discriminate].
  destruct (isValidParent pt) eqn:Ev.
  - destruct (scope st) as [s |] eqn:Es.
    + rewrite (verifyNode_valid _ _ _ _ _ Ep Ev Es).
      destruct (match prevNode s with Some _ => _ | None => _ end);
        [| discriminate].
      intros E. inversion E. unfold enclosing. now rewrite Es.
    + unfold verifyNode, getPrevNode. rewrite Ep, Ev, Es. discriminate.
  - rewrite (verifyNode_invalid _ _ _ _ Ep Ev). intros E. now inversion E.
Qed.

(** *** The walk *)

Lemma traverse_unfold node ctx st :
  traverse node ctx st =
  (st1 <- enterNode node ctx st ;;
   st2 <- traverseAll (children node) ctx st1 ;;
   leaveNode node st2).
Proof.
  destruct node as [b body | ty b cs]; cbn [traverse children].
  - destruct (enterNode _ ctx st) as [st1 |]; [| reflexivity].
    cbn [traverseAll]. now destruct (traverse body ctx st1).
  - destruct (enterNode _ ctx st) as [st1 |]; [| reflexivity].
    match goal with
    | |- (st2 <- ?f cs st1 ;; _) = _ =>
        assert (E : forall l s0, f l s0 = traverseAll l ctx s0)
    end.
    { induction l as [| x r IH]; intros s0; [reflexivity |].
      cbn [traverseAll]. destruct (traverse x ctx s0); [apply IH | reflexivity]. }
    now rewrite E.
Qed.

Lemma enterNode_shape node ctx st st2 :
  (type node =? "Program") = false ->
  enterNode node ctx st = Some st2 ->
  if opensScope (type node)
  then exists st1, enclosing st1 = enclosing st /\ enter st1 = Some st2
  else enclosing st2 = enclosing st.
Proof.
  intros Hp. unfold enterNode, opensScope. rewrite Hp.
  assert (Hv : forall st0 st1,
             (if isStatement (type node) then verifyNode node ctx st0
              else Some st0) = Some st1 -> enclosing st1 = enclosing st0).
  { intros st0 st1. destruct (isStatement (type node)).
    - apply verifyNode_enclosing.
    - intros E. now inversion E. }
  destruct (if isStatement (type node) then _ else _) as [st1 |] eqn:E1;
    [| discriminate].
  apply Hv in E1.
  destruct (type node =? "BlockStatement"); [intros E; now exists st1 |].
  destruct (type node =? "SwitchStatement"); [intros E; now exists st1 |].
  destruct (type node =? "SwitchCase"); cbn [orb].
  - destruct (verifyNode node ctx st1) as [st1' |] eqn:E2; [| discriminate].
    apply verifyNode_enclosing in E2. intros E. exists st1'.
    split; [congruence | exact E].
  - intros E. inversion E. congruence.
Qed.

Lemma leaveNode_shape node st :
  (type node =? "Program") = false ->
  leaveNode node st = if opensScope (type node) then exit st else Some st.
Proof.
  intros Hp. unfold leaveNode, opensScope. rewrite Hp.
  destruct (type node =? "BlockStatement"); [reflexivity |].
  destruct (type node =? "SwitchStatement"); [reflexivity |].
  now destruct (type node =? "SwitchCase").
Qed.

Lemma belowRoot_type node :
  belowRoot node = true -> (type node =? "Program") = false.
Proof.
  destruct node as [b body | ty b cs]; cbn [belowRoot type].
  - reflexivity.
  - intros H. apply andb_prop in H. destruct H as [H _].
    now destruct (ty =? "Program").
Qed.

Lemma belowRoot_children node :
  belowRoot node = true -> forallb belowRoot (children node) = true.
Proof.
  destruct node as [b body | ty b cs]; cbn [belowRoot children forallb].
  - intros ->. reflexivity.
  - intros H. apply andb_prop in H. now destruct H.
Qed.


Lemma traverseAll_enclosing nodes ctx st st' :
  Forall keepsEnclosing nodes ->
  forallb belowRoot nodes = true ->
  traverseAll nodes ctx st = Some st' ->
  enclosing st' = enclosing st.
Proof.
  intros Hall. revert st. induction Hall as [| x r Hx _ IH]; intros st Hb.
  - intros E. now inversion E.
  - cbn [forallb] in Hb. apply andb_prop in Hb. destruct Hb as [Hbx Hbr].
    cbn [traverseAll].
    destruct (traverse x ctx st) as [st1 |] eqn:E1; [| discriminate].
    intros E. rewrite (IH _ Hbr E). now apply (Hx ctx st st1).
Qed.


Lemma traverse_enclosing node : keepsEnclosing node.
Proof.
  assert (Hstep : forall n, Forall keepsEnclosing (children n) ->
                            keepsEnclosing n).
  { intros n Hcs ctx st st' Hb. rewrite traverse_unfold.
    pose proof (belowRoot_type _ Hb) as Hp.
    destruct (enterNode n ctx st) as [st1 |] eqn:E1; [| discriminate].
    destruct (traverseAll (children n) ctx st1) as [st2 |] eqn:E2;
      [| discriminate].
    apply (enterNode_shape _ _ _ _ Hp) in E1.
    apply (traverseAll_enclosing _ _ _ _ Hcs (belowRoot_children _ Hb)) in E2.
    rewrite (leaveNode_shape _ _ Hp).
    destruct (opensScope (type n)).
    - destruct E1 as (st0 & E0 & Een). intros Ex.
      apply exit_enclosing in Ex. apply enter_fresh in Een.
      destruct Een as (_ & Een & _).
      assert (Es : scope st' = scope st0) by congruence.
      unfold enclosing in *. rewrite Es. exact E0.
    - intros E. inversion E. congruence. }
  induction node as [b body IH | ty b cs IH] using Node_forall_ind;
    apply Hstep; cbn [children]; [constructor; [exact IH | constructor] | exact IH].
Qed.

Lemma traverseAll_keeps_enclosing nodes ctx st st' :
  forallb belowRoot nodes = true ->
  traverseAll nodes ctx st = Some st' ->
  enclosing st' = enclosing st.
Proof.
  apply traverseAll_enclosing. apply Forall_forall.
  intros x _. apply traverse_enclosing.
Qed.

(** On a node that opens a scope the listeners run [verifyNode] once and
    then [enter]. *)
Lemma enterNode_scoped node ctx st :
  opensScope (type node) = true ->
  enterNode node ctx st = (st1 <- verifyNode node ctx st ;; enter st1).
Proof.
  unfold opensScope, enterNode. intros H.
  destruct (String.eqb_spec (type node) "BlockStatement") as [E | _].
  { rewrite E. cbn. now destruct (verifyNode node ctx st). }
  destruct (String.eqb_spec (type node) "SwitchStatement") as [E | _].
  { rewrite E. cbn. now destruct (verifyNode node ctx st). }
  destruct (String.eqb_spec (type node) "SwitchCase") as [E | _];
    [| discriminate H].
  rewrite E. cbn. reflexivity.
Qed.

(** The walk over a block, a switch statement or a switch case ends in the
    scope that [verifyNode] on the node itself left: what was visited
    inside is gone. *)
Lemma scoped_walk_keeps_outer_scope node ctx st st' :
  belowRoot node = true -> opensScope (type node) = true ->
  traverse node ctx st = Some st' ->
  exists st1, verifyNode node ctx st = Some st1 /\ scope st' = scope st1.
Proof.
  intros Hb Ho. rewrite traverse_unfold, (enterNode_scoped _ _ _ Ho).
  destruct (verifyNode node ctx st) as [st1 |]; [| discriminate].
  destruct (enter st1) as [st2 |] eqn:Een; [| discriminate].
  destruct (traverseAll (children node) ctx st2) as [st3 |] eqn:Etr;
    [| discriminate].
  rewrite (leaveNode_shape _ _ (belowRoot_type _ Hb)), Ho.
  intros Eex. exists st1. split; [reflexivity |].
  apply (traverseAll_keeps_enclosing _ _ _ _ (belowRoot_children _ Hb)) in Etr.
  apply enter_fresh in Een. destruct Een as (_ & Een & _).
  apply exit_enclosing in Eex. congruence.
Qed.

(** *** The walk returns *)

Lemma testPadding_total p nx ctx st :
  readable (sourceCode ctx) p = true -> readable (sourceCode ctx) nx = true ->
  exists st1, testPadding p nx ctx st = Some st1 /\ scope st1 = scope st.
Proof.
  intros Hp Hn. rewrite testPadding_resolve.
  destruct (firstMatch_defined _ _ _ (rev (configs ctx)) Hp Hn) as (policy & E).
  unfold resolve. rewrite E.
  destruct policy; cbn [paddingTesters]; [now exists st |].
  unfold paddingAlwaysTester. destruct (0 <? _)%nat; eexists; split; reflexivity.
Qed.


Lemma verifyNode_total node ctx st :
  walking (sourceCode ctx) st = true -> visitable (sourceCode ctx) node ->
  exists st1, verifyNode node ctx st = Some st1 /\
              walking (sourceCode ctx) st1 = true.
Proof.
  intros Hw (pt & Ep & Hr). destruct (isValidParent pt) eqn:Ev.
  - unfold walking in Hw. destruct (scope st) as [s |] eqn:Es; [| discriminate].
    rewrite (verifyNode_valid _ _ _ _ _ Ep Ev Es).
    destruct s as [u q]. cbn [readableScope] in Hw.
    apply andb_prop in Hw. destruct Hw as [Hq Hu].
    assert (Hafter : forall r,
               walking (sourceCode ctx)
                 (mkState (Some (mkScope u (Some node))) r) = true).
    { intros r. unfold walking. cbn [scope readableScope].
      now rewrite (Hr eq_refl), Hu. }
    cbn [prevNode upper]. destruct q as [p |].
    + destruct (testPadding_total p node ctx st Hq (Hr eq_refl)) as (st1 & E & _).
      rewrite E. eexists. split; [reflexivity | apply Hafter].
    + eexists. split; [reflexivity | apply Hafter].
  - rewrite (verifyNode_invalid _ _ _ _ Ep Ev). now exists st.
Qed.

Lemma enter_walking sc st st1 :
  walking sc st = true -> enter st = Some st1 -> walking sc st1 = true.
Proof.
  unfold walking. intros Hw E. inversion E. cbn [scope readableScope].
  now destruct (scope st).
Qed.

Lemma walkable_here sc node :
  walkable sc node = true ->
  isStatement (type node) || (type node =? "SwitchCase") = true ->
  visitable sc node.
Proof.
  intros Hw Hs. unfold visitable.
  assert (H : match parent (base node) with
              | Some pt => negb (isValidParent pt) || readable sc node
              | None => false
              end = true).
  { destruct node as [b body | ty b cs]; cbn [walkable] in Hw;
      apply andb_prop in Hw; destruct Hw as [Hw _];
      now rewrite Hs in Hw. }
  destruct (parent (base node)) as [pt |]; [| discriminate].
  exists pt. split; [reflexivity |]. intros Ev. now rewrite Ev in H.
Qed.

Lemma walkable_children sc node :
  walkable sc node = true ->
  forallb (walkable sc) (children node) = true.
Proof.
  destruct node as [b body | ty b cs]; cbn [walkable children forallb];
    intros H; apply andb_prop in H; destruct H as [_ H].
  - now rewrite H.
  - exact H.
Qed.

Lemma enterNode_total node ctx st :
  (type node =? "Program") = false ->
  walkable (sourceCode ctx) node = true ->
  walking (sourceCode ctx) st = true ->
  exists st1, enterNode node ctx st = Some st1 /\
              walking (sourceCode ctx) st1 = true /\
              (opensScope (type node) = true ->
               exists st0, walking (sourceCode ctx) st0 = true /\
                           enter st0 = Some st1).
Proof.
  intros Hp Hwk Hw. pose proof (walkable_here _ _ Hwk) as Hhere.
  destruct (opensScope (type node)) eqn:Ho.
  - rewrite (enterNode_scoped _ _ _ Ho).
    assert (Hs : isStatement (type node) || (type node =? "SwitchCase") = true).
    { unfold opensScope in Ho.
      destruct (String.eqb_spec (type node) "BlockStatement") as [E | _];
        [now rewrite E |].
      destruct (String.eqb_spec (type node) "SwitchStatement") as [E | _];
        [now rewrite E |].
      cbn [orb] in Ho. rewrite Ho. apply orb_true_r. }
    destruct (verifyNode_total node ctx st Hw (Hhere Hs)) as (st0 & E0 & Hw0).
    rewrite E0. eexists. split; [reflexivity |].
    split; [now apply (enter_walking _ st0) |].
    intros _. now exists st0.
  - unfold enterNode, opensScope in *. rewrite Hp.
    destruct (type node =? "BlockStatement"); [discriminate Ho |].
    destruct (type node =? "SwitchStatement"); [discriminate Ho |].
    destruct (type node =? "SwitchCase"); [discriminate Ho |].
    destruct (isStatement (type node)) eqn:Es.
    + destruct (verifyNode_total node ctx st Hw (Hhere eq_refl))
        as (st1 & E1 & Hw1).
      rewrite E1. exists st1. repeat split; [exact Hw1 | discriminate].
    + exists st. repeat split; [exact Hw | discriminate].
Qed.


Lemma traverseAll_returns nodes ctx st :
  Forall returns nodes ->
  forallb belowRoot nodes = true ->
  forallb (walkable (sourceCode ctx)) nodes = true ->
  walking (sourceCode ctx) st = true ->
  exists st', traverseAll nodes ctx st = Some st' /\
              walking (sourceCode ctx) st' = true.
Proof.
  intros Hall. revert st. induction Hall as [| x r Hx _ IH]; intros st Hb Hwk Hw.
  - now exists st.
  - cbn [forallb] in Hb, Hwk.
    apply andb_prop in Hb. destruct Hb as [Hbx Hbr].
    apply andb_prop in Hwk. destruct Hwk as [Hwx Hwr].
    destruct (Hx ctx st Hbx Hwx Hw) as (st1 & E1 & Hw1).
    cbn [traverseAll]. rewrite E1. now apply IH.
Qed.

Lemma traverse_returns node : returns node.
Proof.
  assert (Hstep : forall n, Forall returns (children n) -> returns n).
  { intros n Hcs ctx st Hb Hwk Hw. rewrite traverse_unfold.
    pose proof (belowRoot_type _ Hb) as Hp.
    destruct (enterNode_total n ctx st Hp Hwk Hw) as (st1 & E1 & Hw1 & Hopen).
    rewrite E1.
    destruct (traverseAll_returns _ ctx st1 Hcs (belowRoot_children _ Hb)
                (walkable_children _ _ Hwk) Hw1) as (st2 & E2 & Hw2).
    rewrite E2, (leaveNode_shape _ _ Hp).
    destruct (opensScope (type n)); [| now exists st2].
    destruct (Hopen eq_refl) as (st0 & Hw0 & Een).
    apply (traverseAll_keeps_enclosing _ _ _ _ (belowRoot_children _ Hb)) in E2.
    apply enter_fresh in Een. destruct Een as (_ & Een & _).
    rewrite Een in E2. unfold enclosing in E2. unfold exit.
    destruct (scope st2) as [s2 |]; [| discriminate E2].
    eexists. split; [reflexivity |].
    unfold walking in *. cbn [scope].
    assert (Eu : upper s2 = scope st0) by congruence.
    now rewrite Eu. }
  induction node as [b body IH | ty b cs IH] using Node_forall_ind;
    apply Hstep; cbn [children]; [constructor; [exact IH | constructor] | exact IH].
Qed.

Lemma traverseAll_total nodes ctx st :
  forallb belowRoot nodes = true ->
  forallb (walkable (sourceCode ctx)) nodes = true ->
  walking (sourceCode ctx) st = true ->
  exists st', traverseAll nodes ctx st = Some st' /\
              walking (sourceCode ctx) st' = true.
Proof.
  apply traverseAll_returns. apply Forall_forall.
  intros x _. apply traverse_returns.
Qed.

(** *** The fixer *)

Lemma last_cons_default {A : Type} (x d : A) (l : list A) :
  last (x :: l) d = last l x.
Proof.
  revert x d. induction l as [| y r IH]; intros x d; [reflexivity |].
  change (last (x :: y :: r) d) with (last (y :: r) d).
  now rewrite !IH.
Qed.

Lemma firstTokenFiltered_split (tokens : list Token) (prevToken : Token) :
  exists skipped rest,
    tokens = skipped ++ rest /\
    trailing prevToken skipped = true /\
    firstTokenFiltered prevToken tokens
    = (last skipped prevToken, hd_error rest) /\
    (forall t, hd_error rest = Some t ->
       areTokensOnSameLine (ofToken (last skipped prevToken)) (ofToken t)
       = false).
Proof.
  revert prevToken. induction tokens as [| t r IH]; intros prevToken.
  - exists [], []. repeat split. discriminate.
  - cbn [firstTokenFiltered].
    destruct (areTokensOnSameLine (ofToken prevToken) (ofToken t)) eqn:Et.
    + destruct (IH t) as (skipped & rest & Er & Htr & Ef & Hn).
      exists (t :: skipped), rest. rewrite last_cons_default.
      repeat split; try assumption.
      * now rewrite Er.
      * cbn [trailing]. now rewrite Et, Htr.
    + exists [], (t :: r). repeat split.
      cbn [hd_error last]. intros t' E. inversion E. now subst.
Qed.

(** *** Padding decisions, fixes and scopes *)

(** C1. Let [p] be the previous statement of the current scope and [n] a
    statement with a valid parent, and let the table resolve the pair to
    [Always]. Without a blank-line sequence between them the visit of [n]
    adds exactly one report, on [n], with the message "Expected blank
    line before this statement." and with a fix; with at least one
    sequence it adds none. *)
Theorem always_reports_missing_padding node p ctx st s pt :
  scope st = Some s -> prevNode s = Some p ->
  parent (base node) = Some pt -> isValidParent pt = true ->
  resolve p node (configs ctx) (sourceCode ctx) = Some PaddingType.Always ->
  (getPaddingLineSequences p node (sourceCode ctx) = [] ->
   verifyNode node ctx st =
   Some (mkState (Some (mkScope (upper s) (Some node)))
           (reports st ++
            [mkReport node "Expected blank line before this statement."
               (Some (alwaysFix p node (sourceCode ctx)))]))) /\
  (getPaddingLineSequences p node (sourceCode ctx) <> [] ->
   verifyNode node ctx st =
   Some (mkState (Some (mkScope (upper s) (Some node))) (reports st))).
Proof.
  intros Es Ep Epar Ev Er.
  rewrite (verifyNode_valid _ _ _ _ _ Epar Ev Es), Ep.
  rewrite testPadding_resolve, Er. cbn [paddingTesters].
  unfold paddingAlwaysTester.
  split; intros Hseq.
  - now rewrite Hseq.
  - destruct (getPaddingLineSequences p node (sourceCode ctx));
      [contradiction | reflexivity].
Qed.

(** C2. The fix for a pair starts from the actual last token of the
    previous node. The tokens and comments between that token and the
    next node split into the ones skipped, each on the line of the
    reference token before it, and the rest. The reference token ends up
    as the last token skipped; the anchor is the first token of the
    rest, which is not on the line of the reference token, or the next
    node when nothing is left. The text goes right after the reference
    token: two line breaks when the anchor is on its line, one
    otherwise. A comment that follows the previous node on its line is
    the first of the skipped tokens, so the text is inserted after it;
    when the first token between is on another line, nothing is
    skipped. *)
Theorem alwaysFix_skips_trailing_tokens p nx sc :
  let prevToken0 := getActualLastToken sc p in
  let between := tokensBetween sc (ofToken prevToken0) (ofNode nx) in
  exists skipped rest,
    between = skipped ++ rest /\
    trailing prevToken0 skipped = true /\
    let prevToken := last skipped prevToken0 in
    let anchor :=
      match rest with
      | [] => ofNode nx
      | token :: _ => ofToken token
      end in
    match rest with
    | [] => True
    | token :: _ =>
        areTokensOnSameLine (ofToken prevToken) (ofToken token) = false
    end /\
    alwaysFix p nx sc =
    insertTextAfter prevToken
      (if areTokensOnSameLine (ofToken prevToken) anchor
       then (LF ++ LF)%string else LF) /\
    fix_range (alwaysFix p nx sc)
    = (snd (tok_range prevToken), snd (tok_range prevToken)) /\
    match between with
    | [] => skipped = []
    | comment :: _ =>
        if areTokensOnSameLine (ofToken prevToken0) (ofToken comment)
        then hd_error skipped = Some comment
        else skipped = []
    end.
Proof.
  intros prevToken0 between.
  destruct (firstTokenFiltered_split between prevToken0)
    as (skipped & rest & Eb & Htr & Ef & Hn).
  exists skipped, rest.
  assert (Efix : alwaysFix p nx sc =
                 insertTextAfter (last skipped prevToken0)
                   (if areTokensOnSameLine (ofToken (last skipped prevToken0))
                         match rest with
                         | [] => ofNode nx
                         | token :: _ => ofToken token
                         end
                    then (LF ++ LF)%string else LF)).
  { unfold alwaysFix. fold prevToken0. fold between. rewrite Ef.
    now destruct rest. }
  split; [exact Eb |]. split; [exact Htr |].
  cbv zeta. split; [| split; [exact Efix | split]].
  - destruct rest as [| token rest']; [exact I | now apply Hn].
  - now rewrite Efix.
  - destruct skipped as [| t skipped'].
    + cbn [app] in Eb. rewrite Eb. destruct rest as [| comment more];
        [reflexivity |].
      specialize (Hn comment eq_refl). cbn [last] in Hn. now rewrite Hn.
    + rewrite Eb. cbn [app hd_error]. cbn [trailing] in Htr.
      apply andb_prop in Htr. destruct Htr as [Ht _]. now rewrite Ht.
Qed.

(** C3. [testPadding] applies the tester of the policy that the backward
    scan of the table resolves to. The rule that matches both nodes and
    has no matching rule declared after it decides. For the table
    [{Always, Any -> X}, {Any, Any -> X}] and a next statement of type
    [X] the policy is [Any]. *)
Theorem testPadding_last_rule_wins p nx ctx st :
  testPadding p nx ctx st =
  (policy <- resolve p nx (configs ctx) (sourceCode ctx) ;;
   paddingTesters policy p nx ctx st) /\
  (forall i c,
     nth_error (configs ctx) i = Some c ->
     configMatches c p nx (sourceCode ctx) = Some true ->
     (forall j c', i < j -> nth_error (configs ctx) j = Some c' ->
                   configMatches c' p nx (sourceCode ctx) = Some false) ->
     resolve p nx (configs ctx) (sourceCode ctx) = Some (paddingType c) /\
     testPadding p nx ctx st = paddingTesters (paddingType c) p nx ctx st) /\
  (forall X,
     configs ctx = [ mkConfig PaddingType.Always (Single StatementType.Any) X;
                     mkConfig PaddingType.Any (Single StatementType.Any) X ] ->
     nodeMatchesType nx X (sourceCode ctx) = Some true ->
     resolve p nx (configs ctx) (sourceCode ctx) = Some PaddingType.Any /\
     testPadding p nx ctx st = Some st).
Proof.
  split; [apply testPadding_resolve |]. split.
  - intros i c Ec Hm Hlater.
    assert (Er : resolve p nx (configs ctx) (sourceCode ctx)
                 = Some (paddingType c)).
    { unfold resolve. rewrite (nth_error_split_at _ _ _ Ec) at 1.
      rewrite firstMatch_skip.
      - cbn [firstMatch]. now rewrite Hm.
      - intros c' Hin. apply in_skipn_nth in Hin.
        destruct Hin as (j & Hj & Ej). now apply (Hlater j). }
    split; [exact Er |]. now rewrite testPadding_resolve, Er.
  - intros X Ecfg HX.
    assert (Er : resolve p nx (configs ctx) (sourceCode ctx) = Some PaddingType.Any).
    { unfold resolve. rewrite Ecfg.
      cbn [rev app firstMatch]. unfold configMatches.
      cbn [prevStatementType nextStatementType paddingType].
      change (nodeMatchesType p (Single StatementType.Any) (sourceCode ctx)) with (Some true).
      now rewrite HX. }
    split; [exact Er |]. now rewrite testPadding_resolve, Er.
Qed.

(** C9. When no rule of the table matches the pair, the policy is the
    default [Any]; and whenever the policy is [Any], whatever lies
    between the two nodes, [testPadding] leaves the state as it is: no
    report and no fix. *)
Theorem any_policy_is_silent p nx ctx st :
  ((forall c, In c (configs ctx) ->
              configMatches c p nx (sourceCode ctx) = Some false) ->
   resolve p nx (configs ctx) (sourceCode ctx) = Some PaddingType.Any) /\
  (resolve p nx (configs ctx) (sourceCode ctx) = Some PaddingType.Any ->
   testPadding p nx ctx st = Some st).
Proof.
  split.
  - intros Hnone. unfold resolve.
    assert (Hrev : forall c, In c (rev (configs ctx)) ->
                             configMatches c p nx (sourceCode ctx) = Some false)
      by (intros c Hc; apply Hnone; now apply in_rev).
    clear Hnone. induction (rev (configs ctx)) as [| c r IH]; [reflexivity |].
    cbn [firstMatch]. rewrite (Hrev c) by now left.
    apply IH. intros c' Hc'. apply Hrev. now right.
  - intros Er. now rewrite testPadding_resolve, Er.
Qed.

(** C5, as the code has it. A statement whose parent is not a valid one
    leaves the state untouched: the previous statement of the scope is
    not overwritten. A statement with a valid parent becomes the previous
    statement of the current scope, after the padding test against the
    one before it, if there was one. *)
Theorem verifyNode_records_valid_statements node ctx st pt :
  parent (base node) = Some pt ->
  (isValidParent pt = false -> verifyNode node ctx st = Some st) /\
  (isValidParent pt = true ->
   (forall s, scope st = Some s ->
      verifyNode node ctx st =
      (st1 <- match prevNode s with
              | Some p => testPadding p node ctx st
              | None => Some st
              end ;;
       Some (mkState (Some (mkScope (upper s) (Some node))) (reports st1)))) /\
   (forall st', verifyNode node ctx st = Some st' ->
      getPrevNode st' = Some (Some node))).
Proof.
  intros Ep. split; [intros Ev; exact (verifyNode_invalid _ _ _ _ Ep Ev) |].
  intros Ev. split; [intros s Es; exact (verifyNode_valid _ _ _ _ _ Ep Ev Es) |].
  intros st'. destruct (scope st) as [s |] eqn:Es.
  - rewrite (verifyNode_valid _ _ _ _ _ Ep Ev Es).
    destruct (match prevNode s with Some _ => _ | None => _ end);
      [| discriminate].
    intros E. now inversion E.
  - unfold verifyNode, getPrevNode. rewrite Ep, Ev, Es. discriminate.
Qed.

(** C7. Whatever is visited between entering a nested scope and exiting
    it, the scope that is current after the exit is the one that was
    current before the entry, with the previous statement it had then; and
    on the trees of a parser the visit and the exit do get there. *)
Theorem nested_scope_does_not_leak nodes ctx st st1 :
  forallb belowRoot nodes = true ->
  enter st = Some st1 ->
  (forall st2 st3,
     traverseAll nodes ctx st1 = Some st2 -> exit st2 = Some st3 ->
     scope st3 = scope st /\ getPrevNode st3 = getPrevNode st) /\
  (forallb (walkable (sourceCode ctx)) nodes = true ->
   walking (sourceCode ctx) st = true ->
   exists st2 st3,
     traverseAll nodes ctx st1 = Some st2 /\ exit st2 = Some st3 /\
     scope st3 = scope st).
Proof.
  intros Hb Een.
  assert (Hback : forall st2 st3,
             traverseAll nodes ctx st1 = Some st2 -> exit st2 = Some st3 ->
             scope st3 = scope st).
  { intros st2 st3 Etr Eex.
    apply (traverseAll_keeps_enclosing _ _ _ _ Hb) in Etr.
    apply enter_fresh in Een. destruct Een as (_ & Een & _).
    apply exit_enclosing in Eex. congruence. }
  split.
  - intros st2 st3 Etr Eex. pose proof (Hback _ _ Etr Eex) as Es.
    split; [exact Es |]. unfold getPrevNode. now rewrite Es.
  - intros Hwk Hw.
    destruct (traverseAll_total nodes ctx st1 Hb Hwk
                (enter_walking _ _ _ Hw Een)) as (st2 & Etr & Hw2).
    unfold walking in Hw2.
    destruct (scope st2) as [s2 |] eqn:Es2; [| discriminate].
    assert (Eex : exit st2 = Some (mkState (upper s2) (reports st2)))
      by (unfold exit; now rewrite Es2).
    eexists. eexists. split; [exact Etr |]. split; [exact Eex |].
    exact (Hback _ _ Etr Eex).
Qed.

(** C4, on the code. Leaving the program root pushes a scope instead of
    popping one: the walk over a whole program ends, and it ends with two
    scopes on the stack, not with none. *)
Theorem program_exit_pushes_a_scope b cs ctx :
  forallb belowRoot cs = true ->
  forallb (walkable (sourceCode ctx)) cs = true ->
  (forall st, leaveNode (OtherNode "Program" b cs) st = enter st) /\
  exists st', traverse (OtherNode "Program" b cs) ctx initialState = Some st' /\
              depth st' = 2.
Proof.
  intros Hb Hwk. split; [reflexivity |].
  rewrite traverse_unfold. cbn [children].
  change (enterNode (OtherNode "Program" b cs) ctx initialState)
    with (enter initialState).
  cbn [enter initialState scope reports].
  destruct (traverseAll_total cs ctx (mkState (Some (mkScope None None)) [])
              Hb Hwk eq_refl) as (st2 & E2 & _).
  rewrite E2.
  apply (traverseAll_keeps_enclosing _ _ _ _ Hb) in E2.
  change (leaveNode (OtherNode "Program" b cs) st2) with (enter st2).
  eexists. split; [reflexivity |]. unfold depth. cbn [scope].
  unfold enclosing in E2. cbn [scope upper] in E2.
  destruct (scope st2) as [[u q] |]; [| discriminate].
  cbn [upper] in E2. inversion E2. reflexivity.
Qed.

End RuleProperties.

(** ** Fixing and checking again *)

Section FixProperties.

Import Host.

Local Abbreviation alwaysFix :=
  (alwaysFix AstUtils.getActualLastToken AstUtils.areTokensOnSameLine).
Local Abbreviation firstTokenFiltered :=
  (firstTokenFiltered AstUtils.areTokensOnSameLine).
Local Abbreviation paddingAlwaysTester :=
  (paddingAlwaysTester AstUtils.PaddingLineSequence
     AstUtils.getPaddingLineSequences AstUtils.getActualLastToken
     AstUtils.areTokensOnSameLine).
Local Abbreviation paddingTesters :=
  (paddingTesters AstUtils.PaddingLineSequence
     AstUtils.getPaddingLineSequences AstUtils.getActualLastToken
     AstUtils.areTokensOnSameLine).
Local Abbreviation testPadding :=
  (testPadding AstUtils.PaddingLineSequence
     AstUtils.getPaddingLineSequences AstUtils.getActualLastToken
     AstUtils.areTokensOnSameLine).

(** *** Ordered tokens *)

Lemma orderedTokens_before (l1 l2 : list Token) (a b : Token) :
  orderedTokens (l1 ++ l2) = true -> In a l1 -> In b l2 ->
  before a b = true.
Proof.
  induction l1 as [| x r IH]; intros Ho Ha Hb; [destruct Ha |].
  cbn [app orderedTokens] in Ho.
  apply andb_prop in Ho. destruct Ho as [Hx Hr].
  apply andb_prop in Hx. destruct Hx as [_ Hx].
  destruct Ha as [-> | Ha].
  - rewrite forallb_forall in Hx. apply Hx. apply in_or_app. now right.
  - now apply IH.
Qed.

Lemma orderedTokens_nonEmpty (l : list Token) (a : Token) :
  orderedTokens l = true -> In a l -> nonEmpty a = true.
Proof.
  induction l as [| x r IH]; intros Ho Ha; [destruct Ha |].
  cbn [orderedTokens] in Ho.
  apply andb_prop in Ho. destruct Ho as [Hx Hr].
  apply andb_prop in Hx. destruct Hx as [Hne _].
  destruct Ha as [-> | Ha]; [exact Hne | now apply IH].
Qed.

Lemma orderedTokens_filter (g : Token -> bool) (l : list Token) :
  orderedTokens l = true -> orderedTokens (filter g l) = true.
Proof.
  induction l as [| x r IH]; intros Ho; [reflexivity |].
  cbn [orderedTokens] in Ho.
  apply andb_prop in Ho. destruct Ho as [Hx Hr].
  apply andb_prop in Hx. destruct Hx as [Hne Hx].
  cbn [filter]. destruct (g x); [| now apply IH].
  cbn [orderedTokens]. rewrite Hne, (IH Hr), andb_true_r. cbn [andb].
  rewrite forallb_forall in *. intros y Hy. apply Hx.
  apply filter_In in Hy. now destruct Hy.
Qed.

(** Two tokens of an ordered list, the first ending before the second
    starts, are also in that order by their lines. *)
Lemma orderedTokens_lines (l : list Token) (a b : Token) :
  orderedTokens l = true -> In a l -> In b l ->
  (snd (tok_range a) <= fst (tok_range b))%Z ->
  (endLine (ofToken a) <= startLine (ofToken b))%Z.
Proof.
  intros Ho Ha Hb Hab.
  pose proof (orderedTokens_nonEmpty _ _ Ho Ha) as Hna.
  pose proof (orderedTokens_nonEmpty _ _ Ho Hb) as Hnb.
  unfold nonEmpty in Hna, Hnb. apply Z.ltb_lt in Hna, Hnb.
  apply in_split in Ha. destruct Ha as (l1 & l2 & ->).
  apply in_app_or in Hb. destruct Hb as [Hb | [-> | Hb]].
  - assert (H : before b a = true)
      by (apply (orderedTokens_before l1 (a :: l2)); auto; now left).
    unfold before in H. apply andb_prop in H. destruct H as [H _].
    apply Z.leb_le in H. lia.
  - lia.
  - assert (H : before a b = true).
    { apply (orderedTokens_before (l1 ++ [a]) l2).
      - now rewrite <- app_assoc.
      - apply in_or_app. right. now left.
      - exact Hb. }
    unfold before in H. apply andb_prop in H. destruct H as [_ H].
    now apply Z.leb_le in H.
Qed.

(** *** Moving positions *)

Lemma lineBreaks_text (same : bool) :
  lineBreaks (if same then (LF ++ LF)%string else LF)
  = (if same then 2 else 1)%Z.
Proof. now destruct same. Qed.

Lemma text_length_nonneg (f : Fix) :
  (0 <= Z.of_nat (String.length (text f)))%Z.
Proof. lia. Qed.

(** Being inside a range compares starts with starts and ends with
    ends, so moving both ranges does not change it. *)
Lemma insideRange_moved (f : Fix) (inner outer : Z * Z) :
  insideRange (movedRange f inner) (movedRange f outer)
  = insideRange inner outer.
Proof.
  pose proof (text_length_nonneg f) as Hlen.
  unfold insideRange, movedRange. cbn [fst snd].
  apply eq_iff_eq_true. rewrite !andb_true_iff, !Z.leb_le.
  destruct (Z.leb_spec (fst (fix_range f)) (fst inner)),
    (Z.leb_spec (fst (fix_range f)) (fst outer)),
    (Z.ltb_spec (fst (fix_range f)) (snd inner)),
    (Z.ltb_spec (fst (fix_range f)) (snd outer)); lia.
Qed.

(** *** The classifier does not see the move *)

Lemma base_movedNode (f : Fix) (n : Node) :
  base (movedNode f n) = movedBase f (base n).
Proof. now destruct n. Qed.

Lemma type_movedNode (f : Fix) (n : Node) :
  type (movedNode f n) = type n.
Proof. now destruct n. Qed.

Lemma innerStatementNode_movedNode (f : Fix) (n : Node) :
  innerStatementNode (movedNode f n) = movedNode f (innerStatementNode n).
Proof.
  induction n as [b body IH | ty b cs _] using Node_forall_ind;
    [exact IH | reflexivity].
Qed.

Lemma find_map {A B : Type} (g : B -> bool) (h : A -> B) (l : list A) :
  find g (map h l) = option_map h (find (fun x => g (h x)) l).
Proof.
  induction l as [| x r IH]; [reflexivity |].
  cbn [map find]. now destruct (g (h x)).
Qed.

Lemma filter_map_swap {A B : Type} (g : B -> bool) (h : A -> B) (l : list A) :
  filter g (map h l) = map h (filter (fun x => g (h x)) l).
Proof.
  induction l as [| x r IH]; [reflexivity |].
  cbn [map filter]. destruct (g (h x)); cbn [map]; now rewrite IH.
Qed.

Lemma find_pointwise {A : Type} (g h : A -> bool) (l : list A) :
  (forall x, g x = h x) -> find g l = find h l.
Proof.
  intros E. induction l as [| x r IH]; [reflexivity |].
  cbn [find]. now rewrite E, IH.
Qed.

Lemma getFirstToken_moved (f : Fix) (sc : SourceCode) (n : Node) :
  getFirstToken (applyFix f sc) (movedNode f n)
  = option_map (movedToken f) (getFirstToken sc n).
Proof.
  unfold getFirstToken, applyFix. cbn [tokensAndComments].
  rewrite find_map. f_equal.
  apply find_pointwise. intros t. rewrite base_movedNode.
  cbn [movedToken movedBase tok_range range].
  now rewrite insideRange_moved.
Qed.

Lemma createTokenTester_moved (f : Fix) name (n : Node) (sc : SourceCode) :
  createTokenTester name (movedNode f n) (applyFix f sc)
  = createTokenTester name n sc.
Proof.
  unfold createTokenTester.
  rewrite getFirstToken_moved, type_movedNode.
  now destruct (getFirstToken sc n).
Qed.

Lemma statementTesters_moved (f : Fix) t (n : Node) (sc : SourceCode) :
  statementTesters t (movedNode f n) (applyFix f sc)
  = statementTesters t n sc.
Proof. destruct t; cbn [statementTesters]; now rewrite ?createTokenTester_moved. Qed.

Lemma nodeMatchesType_moved (f : Fix) (n : Node) ts (sc : SourceCode) :
  nodeMatchesType (movedNode f n) ts (applyFix f sc)
  = nodeMatchesType n ts sc.
Proof.
  unfold nodeMatchesType. rewrite innerStatementNode_movedNode.
  destruct ts as [t | l]; [apply statementTesters_moved |].
  induction l as [| t r IH]; [reflexivity |].
  cbn [some]. unfold nodeMatchesSingle at 1 3.
  rewrite innerStatementNode_movedNode, statementTesters_moved.
  destruct (statementTesters t _ sc) as [[|] |]; auto.
Qed.

Lemma resolve_moved (f : Fix) (p n : Node) table (sc : SourceCode) :
  resolve (movedNode f p) (movedNode f n) table (applyFix f sc)
  = resolve p n table sc.
Proof.
  unfold resolve. induction (rev table) as [| c r IH]; [reflexivity |].
  cbn [firstMatch]. unfold configMatches.
  rewrite !nodeMatchesType_moved, IH. reflexivity.
Qed.

(** *** A line is skipped where the text went in *)

Lemma last_default_or_in {A : Type} (l : list A) (d : A) :
  (l = [] /\ last l d = d) \/ (l <> [] /\ In (last l d) l).
Proof.
  induction l as [| x r IH]; [now left |]. right. split; [discriminate |].
  destruct r as [| y r']; [now left |].
  destruct IH as [[E _] | [_ IH]]; [discriminate |].
  right. exact IH.
Qed.

Lemma last_map {A B : Type} (h : A -> B) (l : list A) (d : A) (d' : B) :
  l <> [] -> last (map h l) d' = h (last l d).
Proof.
  induction l as [| x r IH]; intros Hne; [contradiction |].
  destruct r as [| y r']; [reflexivity |].
  change (last (map h (x :: y :: r')) d') with (last (map h (y :: r')) d').
  change (last (x :: y :: r') d) with (last (y :: r') d).
  apply IH. discriminate.
Qed.

Lemma blankRuns_gap (x : NodeOrToken) (l1 : list NodeOrToken)
  (b : NodeOrToken) (l2 : list NodeOrToken) :
  (2 <= AstUtils.linesApart (last l1 x) b)%Z ->
  AstUtils.blankRuns x (l1 ++ b :: l2) <> [].
Proof.
  revert x. induction l1 as [| y r IH]; intros x Hgap.
  - cbn [app AstUtils.blankRuns last] in *.
    apply Z.leb_le in Hgap. rewrite Hgap. discriminate.
  - cbn [app AstUtils.blankRuns].
    destruct (2 <=? AstUtils.linesApart x y)%Z; [discriminate |].
    apply IH. now rewrite <- (last_cons_default y x).
Qed.

Section Pair.

Variable sc : SourceCode.
Variables prev next : Node.
Hypothesis Hwf : wellFormed sc prev next = true.

Let ts := tokensAndComments sc.
Let p0 := AstUtils.getActualLastToken sc prev.
Let between := tokensBetween sc (ofNode prev) (ofNode next).

Lemma wellFormed_parts :
  orderedTokens ts = true /\
  endsAtLastToken sc prev = true /\
  startsAtFirstToken sc next = true /\
  (snd (range (base prev)) <= fst (range (base next)))%Z.
Proof.
  unfold wellFormed in Hwf.
  apply andb_prop in Hwf. destruct Hwf as [Hw Hb].
  apply andb_prop in Hw. destruct Hw as [Hw Hs].
  apply andb_prop in Hw. destruct Hw as [Ho He].
  apply Z.leb_le in Hb. auto.
Qed.

Lemma wellFormed_ordered : orderedTokens ts = true.
Proof. apply wellFormed_parts. Qed.

Lemma wellFormed_bounds :
  (snd (range (base prev)) <= fst (range (base next)))%Z.
Proof. apply wellFormed_parts. Qed.

Lemma wellFormed_last :
  In p0 ts /\
  snd (tok_range p0) = snd (range (base prev)) /\
  endLine (ofToken p0) = endLine (ofNode prev).
Proof.
  destruct wellFormed_parts as (_ & He & _).
  unfold endsAtLastToken in He. subst p0. unfold AstUtils.getActualLastToken.
  destruct (AstUtils.getLastToken sc prev) as [t |] eqn:Et; [| discriminate].
  apply andb_prop in He. destruct He as [H1 H2].
  apply Z.eqb_eq in H1, H2.
  unfold AstUtils.getLastToken in Et. apply find_some in Et.
  destruct Et as [Hin _]. apply in_rev in Hin. auto.
Qed.

Lemma wellFormed_first :
  exists n0, In n0 ts /\
             fst (tok_range n0) = fst (range (base next)) /\
             startLine (ofToken n0) = startLine (ofNode next).
Proof.
  destruct wellFormed_parts as (_ & _ & Hs & _).
  unfold startsAtFirstToken in Hs.
  destruct (getFirstToken sc next) as [t |] eqn:Et; [| discriminate].
  apply andb_prop in Hs. destruct Hs as [H1 H2].
  apply Z.eqb_eq in H1, H2.
  unfold getFirstToken in Et. apply find_some in Et.
  destruct Et as [Hin _]. exists t. auto.
Qed.

Lemma between_from_last :
  tokensBetween sc (ofToken p0) (ofNode next) = between.
Proof.
  destruct wellFormed_last as (_ & E & _).
  unfold between, tokensBetween. cbn [rangeOf]. now rewrite E.
Qed.

Lemma between_inside (t : Token) :
  In t between ->
  In t ts /\
  (snd (range (base prev)) <= fst (tok_range t))%Z /\
  (snd (tok_range t) <= fst (range (base next)))%Z.
Proof.
  unfold between, tokensBetween. intros Hin.
  apply filter_In in Hin. destruct Hin as [Hin Hr].
  unfold insideRange in Hr. cbn [fst snd rangeOf] in Hr.
  apply andb_prop in Hr. destruct Hr as [H1 H2].
  apply Z.leb_le in H1, H2. auto.
Qed.

(** The reference token the fixer ends on, with what is known of it. *)
Lemma reference_token (skipped rest : list Token) :
  between = skipped ++ rest ->
  let pt := last skipped p0 in
  In pt ts /\
  (snd (range (base prev)) <= snd (tok_range pt))%Z /\
  (snd (tok_range pt) <= fst (range (base next)))%Z /\
  (skipped = [] -> endLine (ofToken pt) = endLine (ofNode prev) /\
                   snd (tok_range pt) = snd (range (base prev))) /\
  (forall t, In t rest ->
             (snd (tok_range pt) <= fst (tok_range t))%Z).
Proof.
  intros Eb pt.
  destruct wellFormed_last as (Hin0 & Eend & Eline).
  pose proof wellFormed_bounds as Hb.
  destruct (last_default_or_in skipped p0) as [[Es El] | [Hne Hin]];
    fold pt in El || fold pt in Hin.
  - rewrite El. repeat split; try assumption; try lia.
    intros t Ht. rewrite Eend. apply between_inside.
    rewrite Eb. apply in_or_app. now right.
  - assert (Hb' : In pt between) by (rewrite Eb; apply in_or_app; now left).
    apply between_inside in Hb'. destruct Hb' as (Hts & Hlo & Hhi).
    pose proof (orderedTokens_nonEmpty _ _ wellFormed_ordered Hts) as Hn.
    unfold nonEmpty in Hn. apply Z.ltb_lt in Hn.
    repeat split; try assumption; try lia; try contradiction.
    intros t Ht.
    assert (Ho : orderedTokens (skipped ++ rest) = true)
      by (rewrite <- Eb; apply orderedTokens_filter, wellFormed_ordered).
    pose proof (orderedTokens_before _ _ _ _ Ho Hin Ht) as Hbf.
    unfold before in Hbf. apply andb_prop in Hbf. destruct Hbf as [Hbf _].
    now apply Z.leb_le.
Qed.

(** After the fix the tokens between the two nodes are the ones that
    were between them, moved. *)
Lemma between_moved (f : Fix) :
  (snd (range (base prev)) <= fst (fix_range f))%Z ->
  (fst (fix_range f) <= fst (range (base next)))%Z ->
  tokensBetween (applyFix f sc) (ofNode (movedNode f prev))
    (ofNode (movedNode f next))
  = map (movedToken f) between.
Proof.
  intros Hlo Hhi. pose proof (text_length_nonneg f) as Hlen.
  unfold between, tokensBetween, applyFix. cbn [tokensAndComments rangeOf].
  rewrite filter_map_swap. f_equal. apply filter_ext. intros t.
  rewrite !base_movedNode.
  unfold insideRange, movedToken, movedBase, movedRange.
  cbn [tok_range range fst snd].
  apply eq_iff_eq_true. rewrite !andb_true_iff, !Z.leb_le.
  destruct (Z.leb_spec (fst (fix_range f)) (fst (tok_range t))),
    (Z.ltb_spec (fst (fix_range f)) (snd (tok_range t))),
    (Z.ltb_spec (fst (fix_range f)) (snd (range (base prev)))),
    (Z.leb_spec (fst (fix_range f)) (fst (range (base next)))); lia.
Qed.

(** The fix makes a blank-line sequence between the two nodes. *)
Lemma fix_opens_blank_line :
  let f := alwaysFix prev next sc in
  AstUtils.getPaddingLineSequences (movedNode f prev) (movedNode f next)
    (applyFix f sc) <> [].
Proof.
  intros f.
  destruct (firstTokenFiltered_split AstUtils.areTokensOnSameLine between p0)
    as (skipped & rest & Eb & _ & Ef & Hn).
  destruct (reference_token skipped rest Eb)
    as (Hin & Hlo & Hhi & Hnone & Hrest).
  set (pt := last skipped p0) in *.
  set (anchor := match rest with
                 | [] => ofNode next
                 | t :: _ => ofToken t
                 end).
  assert (Efix : f = insertTextAfter pt
                       (if AstUtils.areTokensOnSameLine (ofToken pt) anchor
                        then (LF ++ LF)%string else LF)).
  { unfold f, alwaysFix. fold p0. rewrite between_from_last, Ef.
    subst anchor. now destruct rest. }
  assert (Ee : fst (fix_range f) = snd (tok_range pt))
    by now rewrite Efix.
  assert (Ek : lineBreaks (text f)
               = if AstUtils.areTokensOnSameLine (ofToken pt) anchor
                 then 2%Z else 1%Z)
    by (rewrite Efix; apply lineBreaks_text).
  (* the line on which the anchor starts is not above the reference token *)
  assert (Hlines : (endLine (ofToken pt) <= startLine anchor)%Z).
  { subst anchor. destruct rest as [| t rest'].
    - destruct wellFormed_first as (n0 & Hn0 & En0 & El0).
      rewrite <- El0.
      apply (orderedTokens_lines ts); auto using wellFormed_ordered. lia.
    - apply (orderedTokens_lines ts); auto using wellFormed_ordered.
      + apply (between_inside t). rewrite Eb. apply in_or_app. right. now left.
      + apply Hrest. now left. }
  assert (Hgap : (2 <= startLine anchor + lineBreaks (text f)
                       - endLine (ofToken pt))%Z).
  { rewrite Ek. unfold AstUtils.areTokensOnSameLine.
    fold (endLine (ofToken pt)). fold (startLine anchor).
    destruct (Z.eqb_spec (endLine (ofToken pt)) (startLine anchor)).
    - lia.
    - lia. }
  unfold AstUtils.getPaddingLineSequences.
  rewrite between_moved by lia.
  rewrite Eb, !map_app, <- app_assoc.
  (* what follows the skipped tokens starts with the anchor, moved *)
  assert (Hnext : exists b l2,
             map ofToken (map (movedToken f) rest)
             ++ [ofNode (movedNode f next)] = b :: l2 /\
             AstUtils.linesApart
               (last (map ofToken (map (movedToken f) skipped))
                  (ofNode (movedNode f prev))) b
             = (startLine anchor + lineBreaks (text f)
                - endLine (ofToken pt))%Z).
  { assert (Hleft : endLine (last (map ofToken (map (movedToken f) skipped))
                               (ofNode (movedNode f prev)))
                    = endLine (ofToken pt)).
    { destruct skipped as [| x skipped'].
      - destruct (Hnone eq_refl) as [El Er].
        cbn [map last]. unfold endLine in *. cbn [locOf] in *.
        rewrite base_movedNode. cbn [movedBase loc movedLoc loc_end line].
        rewrite Ee, Er, Z.ltb_irrefl. symmetry. exact El.
      - rewrite map_map.
        rewrite (last_map _ (x :: skipped') p0) by discriminate.
        fold pt. unfold endLine. cbn [locOf movedToken tok_loc movedLoc loc_end line].
        now rewrite Ee, Z.ltb_irrefl. }
    subst anchor. destruct rest as [| t rest'].
    - exists (ofNode (movedNode f next)), []. split; [reflexivity |].
      unfold AstUtils.linesApart. fold (endLine (last
        (map ofToken (map (movedToken f) skipped)) (ofNode (movedNode f prev)))).
      rewrite Hleft. f_equal. unfold startLine. cbn [locOf].
      rewrite base_movedNode. cbn [movedBase loc movedLoc loc_start line].
      rewrite Ee. destruct (Z.leb_spec (snd (tok_range pt))
                              (fst (range (base next)))); [reflexivity | lia].
    - exists (ofToken (movedToken f t)),
        (map ofToken (map (movedToken f) rest')
         ++ [ofNode (movedNode f next)]).
      split; [reflexivity |].
      unfold AstUtils.linesApart. fold (endLine (last
        (map ofToken (map (movedToken f) skipped)) (ofNode (movedNode f prev)))).
      rewrite Hleft. f_equal. unfold startLine.
      cbn [locOf movedToken tok_loc movedLoc loc_start line].
      rewrite Ee. pose proof (Hrest t (or_introl eq_refl)).
      destruct (Z.leb_spec (snd (tok_range pt)) (fst (tok_range t)));
        [reflexivity | lia]. }
  destruct Hnext as (b & l2 & -> & Eapart).
  apply blankRuns_gap. rewrite Eapart. exact Hgap.
Qed.

End Pair.

Lemma not_extended {A : Type} (l : list A) (x : A) : l <> l ++ [x].
Proof.
  intros E. apply (f_equal (@List.length A)) in E.
  rewrite length_app in E. cbn in E. lia.
Qed.

(** C8. For a pair in a well-formed source: when the check of the pair
    reported a violation with a fix, the check of the same pair on the
    source with that fix applied reports nothing. *)
Theorem fix_then_no_violation sc prev next table st st1 r f st0 :
  wellFormed sc prev next = true ->
  testPadding prev next (mkContext sc table) st = Some st1 ->
  reports st1 = reports st ++ [r] ->
  report_fix r = Some f ->
  testPadding (movedNode f prev) (movedNode f next)
    (mkContext (applyFix f sc) table) st0 = Some st0.
Proof.
  intros Hwf Erun Erep Efix.
  rewrite testPadding_resolve in Erun. cbn [configs sourceCode] in Erun.
  rewrite testPadding_resolve. cbn [configs sourceCode].
  rewrite resolve_moved.
  destruct (resolve prev next table sc) as [[|] |]; [| | discriminate].
  - cbn [paddingTesters] in Erun. inversion Erun. subst st1.
    now apply not_extended in Erep.
  - cbn [paddingTesters] in *. unfold paddingAlwaysTester in *.
    cbn [sourceCode] in *.
    destruct (0 <? List.length
                (AstUtils.getPaddingLineSequences prev next sc))%nat.
    + inversion Erun. subst st1. now apply not_extended in Erep.
    + inversion Erun. subst st1. cbn [report reports] in Erep.
      apply app_inv_head in Erep. inversion Erep. subst r.
      cbn [report_fix] in Efix. inversion Efix. subst f.
      pose proof (fix_opens_blank_line sc prev next Hwf) as Hopen.
      cbv zeta in Hopen.
      destruct (AstUtils.getPaddingLineSequences _ _ _);
        [contradiction | reflexivity].
Qed.

End FixProperties.

(** ** The rule on the sample file *)

Section OnSample.

Import Sample.

Local Abbreviation alwaysFix :=
  (alwaysFix AstUtils.getActualLastToken AstUtils.areTokensOnSameLine).
Local Abbreviation testPadding :=
  (testPadding AstUtils.PaddingLineSequence
     AstUtils.getPaddingLineSequences AstUtils.getActualLastToken
     AstUtils.areTokensOnSameLine).
Local Abbreviation verifyNode :=
  (verifyNode AstUtils.PaddingLineSequence
     AstUtils.getPaddingLineSequences AstUtils.getActualLastToken
     AstUtils.areTokensOnSameLine AstUtils.isValidParent).
Local Abbreviation traverseAll :=
  (traverseAll AstUtils.PaddingLineSequence
     AstUtils.getPaddingLineSequences AstUtils.getActualLastToken
     AstUtils.areTokensOnSameLine AstUtils.isValidParent).
Local Abbreviation runRule :=
  (runRule AstUtils.PaddingLineSequence
     AstUtils.getPaddingLineSequences AstUtils.getActualLastToken
     AstUtils.areTokensOnSameLine AstUtils.isValidParent).

(** The whole rule: one report, on the call of [describe], whose fix puts
    the line break after the comment that follows [foo();]. *)
Example runRule_sample :
  option_map reports (runRule program context) = Some [describeReport].
Proof. reflexivity. Qed.

Example alwaysFix_sample : alwaysFix fooCall describeCall source = noteFix.
Proof. reflexivity. Qed.

(** On one line the fix is two line breaks after [foo();], and the call of
    [describe] lands on line 3. *)
Example alwaysFix_one_line :
  alwaysFix fooCall describeOnLine oneLine = mkFix (6, 6)%Z (LF ++ LF)%string /\
  Host.movedNode (mkFix (6, 6)%Z (LF ++ LF)%string) describeOnLine
  = stmt 9 20 3 "Program".
Proof. split; reflexivity. Qed.

Lemma always_reports_missing_padding_witness :
  verifyNode describeCall context afterFoo
  = Some (mkState (Some (mkScope None (Some describeCall)))
            [mkReport describeCall "Expected blank line before this statement."
               (Some (alwaysFix fooCall describeCall source))]).
Proof.
  apply (proj1 (always_reports_missing_padding
                  AstUtils.PaddingLineSequence
                  AstUtils.getPaddingLineSequences
                  AstUtils.getActualLastToken AstUtils.areTokensOnSameLine
                  AstUtils.isValidParent
                  describeCall fooCall context afterFoo
                  (mkScope None (Some fooCall)) "Program"
                  eq_refl eq_refl eq_refl eq_refl eq_refl)).
  reflexivity.
Defined.

Lemma testPadding_last_rule_wins_witness :
  resolve fooCall describeCall overridden source = Some PaddingType.Any /\
  testPadding fooCall describeCall (mkContext source overridden) afterFoo
  = Some afterFoo.
Proof.
  apply (proj2 (proj2 (testPadding_last_rule_wins
                         AstUtils.PaddingLineSequence
                         AstUtils.getPaddingLineSequences
                         AstUtils.getActualLastToken
                         AstUtils.areTokensOnSameLine
                         fooCall describeCall (mkContext source overridden)
                         afterFoo)) (Single StatementType.DescribeToken));
    reflexivity.
Defined.

Lemma any_policy_is_silent_witness :
  testPadding describeCall fooCall context afterFoo = Some afterFoo.
Proof.
  pose proof (any_policy_is_silent
                AstUtils.PaddingLineSequence
                AstUtils.getPaddingLineSequences
                AstUtils.getActualLastToken AstUtils.areTokensOnSameLine
                describeCall fooCall context afterFoo) as [Hnone Hany].
  apply Hany, Hnone.
  intros c [<- | []]. reflexivity.
Defined.

Lemma verifyNode_records_valid_statements_witness :
  verifyNode describeInIf context afterFoo = Some afterFoo.
Proof.
  apply (proj1 (verifyNode_records_valid_statements
                  AstUtils.PaddingLineSequence
                  AstUtils.getPaddingLineSequences
                  AstUtils.getActualLastToken AstUtils.areTokensOnSameLine
                  AstUtils.isValidParent
                  describeInIf context afterFoo "IfStatement" eq_refl)).
  reflexivity.
Defined.

(** C5, as stated, fails: the call of [describe] that is the body of an
    [if] is visited and the previous statement of the scope is still
    [foo();]. *)
Lemma verifyNode_keeps_previous_on_invalid_parent :
  parent (base describeInIf) = Some "IfStatement" /\
  AstUtils.isValidParent "IfStatement" = false /\
  verifyNode describeInIf context afterFoo = Some afterFoo /\
  getPrevNode afterFoo = Some (Some fooCall) /\
  fooCall <> describeInIf.
Proof.
  split; [reflexivity |]. split; [reflexivity |]. split; [reflexivity |].
  split; [reflexivity | discriminate].
Qed.

Lemma nested_scope_does_not_leak_witness :
  exists st2 st3,
    traverseAll [describeInBlock] context
      (mkState (Some (mkScope (scope afterFoo) None)) []) = Some st2 /\
    exit st2 = Some st3 /\
    scope st3 = scope afterFoo.
Proof.
  apply (proj2 (nested_scope_does_not_leak
                  AstUtils.PaddingLineSequence
                  AstUtils.getPaddingLineSequences
                  AstUtils.getActualLastToken AstUtils.areTokensOnSameLine
                  AstUtils.isValidParent
                  [describeInBlock] context afterFoo
                  (mkState (Some (mkScope (scope afterFoo) None)) [])
                  eq_refl eq_refl));
    reflexivity.
Defined.

Lemma program_exit_pushes_a_scope_witness :
  exists st', runRule program context = Some st' /\ depth st' = 2.
Proof.
  apply (proj2 (program_exit_pushes_a_scope
                  AstUtils.PaddingLineSequence
                  AstUtils.getPaddingLineSequences
                  AstUtils.getActualLastToken AstUtils.areTokensOnSameLine
                  AstUtils.isValidParent
                  (mkBase (0, 26)%Z (mkLoc (mkPosition 1) (mkPosition 2)) None)
                  [fooCall; describeCall] context eq_refl eq_refl)).
Defined.

(** After the fix the call of [describe] is on line 3 and line 2 is
    blank. *)
Example movedNode_sample :
  Host.movedNode noteFix describeCall = stmt 16 27 3 "Program" /\
  Host.movedNode noteFix fooCall = fooCall /\
  AstUtils.getPaddingLineSequences fooCall (stmt 16 27 3 "Program")
    (Host.applyFix noteFix source)
  = [(ofToken note, ofNode (stmt 16 27 3 "Program"))].
Proof. repeat split; reflexivity. Qed.

Lemma fix_then_no_violation_witness :
  testPadding (Host.movedNode noteFix fooCall)
    (Host.movedNode noteFix describeCall)
    (mkContext (Host.applyFix noteFix source) beforeDescribe) afterFoo
  = Some afterFoo.
Proof.
  apply (fix_then_no_violation source fooCall describeCall beforeDescribe
           afterFoo (mkState (scope afterFoo) [describeReport])
           describeReport noteFix afterFoo);
    reflexivity.
Defined.

End OnSample.


(** * More of the code *)

(** ** Statement kinds *)

Lemma tokenName_injective (a b : StatementType.t) (name : string) :
  tokenName a = Some name -> tokenName b = Some name -> a = b.
Proof.
  destruct a; cbn; intros Ea; inversion Ea; subst;
    destruct b; cbn; intros Eb; solve [reflexivity | discriminate Eb].
Qed.

Lemma named_sound (v : string) (t : StatementType.t) :
  named v = Some t -> tokenName t = Some v.
Proof.
  unfold named. intros E. apply find_some in E. destruct E as [_ E].
  destruct (tokenName t) as [name |]; [| discriminate].
  apply String.eqb_eq in E. now subst.
Qed.

Lemma named_complete (v : string) (t : StatementType.t) :
  tokenName t = Some v -> named v = Some t.
Proof.
  intros E. unfold named.
  destruct (find _ namedTypes) as [t' |] eqn:Ef.
  - f_equal. apply (tokenName_injective t' t v); [| exact E].
    now apply named_sound.
  - exfalso.
    assert (Hin : In t namedTypes)
      by (destruct t; cbn in E; try discriminate E; cbn; tauto).
    apply (find_none _ _ Ef) in Hin. rewrite E, String.eqb_refl in Hin.
    discriminate.
Qed.

Lemma some_pure {A : Type} (f : A -> option bool) (g : A -> bool) (l : list A) :
  (forall x, f x = Some (g x)) -> some f l = Some (existsb g l).
Proof.
  intros E. induction l as [| x r IH]; [reflexivity |].
  cbn [some existsb]. rewrite E. destruct (g x); [reflexivity | exact IH].
Qed.

(** On a readable node a tester answers by the kind of the node. *)
Lemma statementTesters_kind (sc : SourceCode) (n : Node) (t : StatementType.t) :
  readable sc n = true ->
  statementTesters t (innerStatementNode n) sc
  = Some (matchesKind (kindOf sc n) t).
Proof.
  intros Hr. unfold matchesKind.
  destruct (tokenName t) as [name |] eqn:En;
    [| destruct t; try discriminate En; reflexivity].
  rewrite (statementTesters_named t name En).
  unfold createTokenTester, kindOf.
  pose proof (readable_first_token sc n Hr) as Hread.
  destruct (String.eqb_spec (type (innerStatementNode n)) "ExpressionStatement")
    as [Ety | _]; [| reflexivity].
  destruct (getFirstToken sc (innerStatementNode n)) as [tk |];
    [| now destruct (Hread Ety)].
  destruct (tok_type tk =? "Identifier"); [| reflexivity].
  f_equal. destruct (named (value tk)) as [t' |] eqn:Ek.
  - unfold sameType. now rewrite (named_sound _ _ Ek), En.
  - destruct (String.eqb_spec (value tk) name) as [Ev | _]; [| reflexivity].
    rewrite <- Ev in En. apply named_complete in En. congruence.
Qed.

Lemma nodeMatchesType_kind (sc : SourceCode) (n : Node) (ts : StatementTypes) :
  readable sc n = true ->
  nodeMatchesType n ts sc = Some (matchesKinds (kindOf sc n) ts).
Proof.
  intros Hr. unfold nodeMatchesType, matchesKinds.
  destruct ts as [t | l]; [now apply statementTesters_kind |].
  apply some_pure. intros t. unfold nodeMatchesSingle.
  rewrite innerStatementNode_idem. now apply statementTesters_kind.
Qed.

Lemma firstMatch_kind (sc : SourceCode) (p n : Node) (l : list Config) :
  readable sc p = true -> readable sc n = true ->
  firstMatch l p n sc
  = Some (firstMatchKinds l (kindOf sc p) (kindOf sc n)).
Proof.
  intros Hp Hn. induction l as [| c r IH]; [reflexivity |].
  cbn [firstMatch firstMatchKinds]. unfold configMatches, configMatchesKinds.
  rewrite (nodeMatchesType_kind sc p _ Hp), (nodeMatchesType_kind sc n _ Hn).
  destruct (matchesKinds (kindOf sc p) (prevStatementType c)); cbn [andb];
    [| exact IH].
  destruct (matchesKinds (kindOf sc n) (nextStatementType c));
    [reflexivity | exact IH].
Qed.

Lemma resolve_kind (sc : SourceCode) (p n : Node) (table : list Config) :
  readable sc p = true -> readable sc n = true ->
  resolve p n table sc
  = Some (firstMatchKinds (rev table) (kindOf sc p) (kindOf sc n)).
Proof. intros Hp Hn. now apply firstMatch_kind. Qed.

Lemma resolve_always_kind (sc : SourceCode) (p n : Node) (table : list Config) :
  readable sc p = true -> readable sc n = true ->
  (resolve p n table sc = Some PaddingType.Always <->
   isAlways (firstMatchKinds (rev table) (kindOf sc p) (kindOf sc n)) = true).
Proof.
  intros Hp Hn. rewrite (resolve_kind sc p n table Hp Hn).
  destruct (firstMatchKinds _ _ _); cbn; split; congruence.
Qed.

(** X1. A statement is of at most one named statement type. *)
Theorem named_types_exclusive (node : Node) (sc : SourceCode)
  (t1 t2 : StatementType.t) :
  t1 <> StatementType.Any -> t2 <> StatementType.Any ->
  nodeMatchesType node (Single t1) sc = Some true ->
  nodeMatchesType node (Single t2) sc = Some true ->
  t1 = t2.
Proof.
  intros H1 H2 E1 E2.
  destruct (tokenName_named t1 H1) as (n1 & N1).
  destruct (tokenName_named t2 H2) as (n2 & N2).
  unfold nodeMatchesType in E1, E2.
  rewrite (statementTesters_named _ _ N1) in E1.
  rewrite (statementTesters_named _ _ N2) in E2.
  apply createTokenTester_true in E1, E2.
  destruct E1 as (_ & tk1 & Etk1 & _ & V1).
  destruct E2 as (_ & tk2 & Etk2 & _ & V2).
  assert (tk1 = tk2) by congruence. subst tk2.
  apply (tokenName_injective t1 t2 n1); congruence.
Qed.

Lemma named_types_exclusive_witness :
  StatementType.DescribeToken = StatementType.DescribeToken.
Proof.
  apply (named_types_exclusive Sample.describeCall Sample.source);
    solve [discriminate | reflexivity].
Defined.

(** ** The tables of src/index.ts *)

Lemma around_shape (G : StatementTypes) (p n : Node) (sc : SourceCode) :
  readable sc p = true -> readable sc n = true ->
  (resolve p n
     [ mkConfig PaddingType.Always (Single StatementType.Any) G;
       mkConfig PaddingType.Always G (Single StatementType.Any) ] sc
   = Some PaddingType.Always <->
   nodeMatchesType p G sc = Some true \/ nodeMatchesType n G sc = Some true).
Proof.
  intros Hp Hn.
  rewrite (resolve_kind sc p n _ Hp Hn).
  rewrite (nodeMatchesType_kind sc p G Hp), (nodeMatchesType_kind sc n G Hn).
  cbn [rev app firstMatchKinds]. unfold configMatchesKinds.
  cbn [prevStatementType nextStatementType paddingType].
  change (matchesKinds (kindOf sc p) (Single StatementType.Any)) with true.
  change (matchesKinds (kindOf sc n) (Single StatementType.Any)) with true.
  destruct (matchesKinds (kindOf sc p) G), (matchesKinds (kindOf sc n) G);
    cbn; split; intros H; try tauto; try discriminate;
    destruct H as [H | H]; discriminate H.
Qed.

(** X2. Each table of [paddingConfigs] but the one of [expect] is a pair
    of rules for one statement type or one array of them, and for
    readable statements it asks for a blank line exactly when the previous
    or the next statement is of that type. *)
Theorem around_tables_pad_both_sides (name : string) (table : list Config) :
  In (name, table) Index.paddingConfigs -> name <> "expect" ->
  exists G,
    table = [ mkConfig PaddingType.Always (Single StatementType.Any) G;
              mkConfig PaddingType.Always G (Single StatementType.Any) ] /\
    forall p n sc,
      readable sc p = true -> readable sc n = true ->
      (resolve p n table sc = Some PaddingType.Always <->
       nodeMatchesType p G sc = Some true \/
       nodeMatchesType n G sc = Some true).
Proof.
  intros Hin Hname.
  assert (Hshape : exists G,
             table = [ mkConfig PaddingType.Always (Single StatementType.Any) G;
                       mkConfig PaddingType.Always G (Single StatementType.Any) ]).
  { cbn in Hin.
    repeat (destruct Hin as [Hin | Hin];
            [inversion Hin; subst;
             solve [eexists; reflexivity | contradiction Hname; reflexivity] |]).
    destruct Hin. }
  destruct Hshape as (G & ->). exists G. split; [reflexivity |].
  intros p n sc. apply around_shape.
Qed.

Lemma around_tables_pad_both_sides_witness :
  exists G,
    Index.describe
    = [ mkConfig PaddingType.Always (Single StatementType.Any) G;
        mkConfig PaddingType.Always G (Single StatementType.Any) ] /\
    forall p n sc,
      readable sc p = true -> readable sc n = true ->
      (resolve p n Index.describe sc = Some PaddingType.Always <->
       nodeMatchesType p G sc = Some true \/
       nodeMatchesType n G sc = Some true).
Proof.
  apply (around_tables_pad_both_sides "describe" Index.describe).
  - cbn. tauto.
  - discriminate.
Defined.

(** X3. The table of [expect]: for readable statements a blank line is
    asked for exactly when one of the two statements is a call of [expect]
    and the other is not; two calls of [expect] in a row need none. *)
Theorem expect_table_pads_around_groups (p n : Node) (sc : SourceCode) :
  readable sc p = true -> readable sc n = true ->
  exists bp bn,
    nodeMatchesType p (Single StatementType.ExpectToken) sc = Some bp /\
    nodeMatchesType n (Single StatementType.ExpectToken) sc = Some bn /\
    resolve p n Index.expect sc
    = Some (if xorb bp bn then PaddingType.Always else PaddingType.Any).
Proof.
  intros Hp Hn.
  exists (matchesKinds (kindOf sc p) (Single StatementType.ExpectToken)),
    (matchesKinds (kindOf sc n) (Single StatementType.ExpectToken)).
  rewrite (resolve_kind sc p n _ Hp Hn).
  rewrite (nodeMatchesType_kind sc p _ Hp), (nodeMatchesType_kind sc n _ Hn).
  split; [reflexivity |]. split; [reflexivity |]. f_equal.
  unfold Index.expect. cbn [rev app firstMatchKinds]. unfold configMatchesKinds.
  cbn [prevStatementType nextStatementType paddingType].
  change (matchesKinds (kindOf sc p) (Single StatementType.Any)) with true.
  change (matchesKinds (kindOf sc n) (Single StatementType.Any)) with true.
  destruct (matchesKinds (kindOf sc p) (Single StatementType.ExpectToken)),
    (matchesKinds (kindOf sc n) (Single StatementType.ExpectToken));
    reflexivity.
Qed.

Lemma expect_table_pads_around_groups_witness :
  exists bp bn,
    nodeMatchesType Sample.fooCall (Single StatementType.ExpectToken)
      Sample.source = Some bp /\
    nodeMatchesType Sample.describeCall (Single StatementType.ExpectToken)
      Sample.source = Some bn /\
    resolve Sample.fooCall Sample.describeCall Index.expect Sample.source
    = Some (if xorb bp bn then PaddingType.Always else PaddingType.Any).
Proof.
  apply (expect_table_pads_around_groups Sample.fooCall Sample.describeCall
           Sample.source); reflexivity.
Defined.

Lemma aroundAll_union_kinds (kp kn : option StatementType.t) :
  padsKinds kp kn Index.aroundAll
  = existsb (fun e => padsKinds kp kn (snd e)) Index.paddingConfigs.
Proof.
  destruct kp as [[] |], kn as [[] |]; vm_compute; reflexivity.
Qed.

Lemma aroundAll_subsumes_kinds (kp kn : option StatementType.t) :
  forallb (fun e => implb (padsKinds kp kn (snd e))
                      (padsKinds kp kn Index.aroundAll)) Index.rules = true.
Proof.
  destruct kp as [[] |], kn as [[] |]; vm_compute; reflexivity.
Qed.

Lemma resolve_pads (sc : SourceCode) (p n : Node) (table : list Config) :
  readable sc p = true -> readable sc n = true ->
  (resolve p n table sc = Some PaddingType.Always <->
   padsKinds (kindOf sc p) (kindOf sc n) table = true).
Proof. apply resolve_always_kind. Qed.

(** X4. The table of [padding-around-all], the seven tables of
    [paddingConfigs] one after the other, asks for a blank line between
    two readable statements exactly when one of the seven tables does:
    no later rule of the concatenation overrides an earlier table. *)
Theorem aroundAll_is_union (p n : Node) (sc : SourceCode) :
  readable sc p = true -> readable sc n = true ->
  (resolve p n Index.aroundAll sc = Some PaddingType.Always <->
   exists name table,
     In (name, table) Index.paddingConfigs /\
     resolve p n table sc = Some PaddingType.Always).
Proof.
  intros Hp Hn. rewrite (resolve_pads sc p n _ Hp Hn), aroundAll_union_kinds.
  rewrite existsb_exists. split.
  - intros ((name & table) & Hin & Hpads). exists name, table.
    split; [exact Hin |]. now apply (resolve_pads sc p n table Hp Hn).
  - intros (name & table & Hin & Hres). exists (name, table).
    split; [exact Hin |]. now apply (resolve_pads sc p n table Hp Hn).
Qed.

Lemma aroundAll_is_union_witness :
  resolve Sample.fooCall Sample.describeCall Index.aroundAll Sample.source
  = Some PaddingType.Always.
Proof.
  apply (proj2 (aroundAll_is_union Sample.fooCall Sample.describeCall
                  Sample.source eq_refl eq_refl)).
  exists "describe", Index.describe. split; [cbn; tauto | reflexivity].
Defined.

Lemma rules_within_aroundAll (name : string) (table : list Config)
  (p n : Node) (sc : SourceCode) :
  In (name, table) Index.rules ->
  readable sc p = true -> readable sc n = true ->
  resolve p n table sc = Some PaddingType.Always ->
  resolve p n Index.aroundAll sc = Some PaddingType.Always.
Proof.
  intros Hin Hp Hn Hres.
  apply (resolve_pads sc p n _ Hp Hn).
  apply (resolve_pads sc p n _ Hp Hn) in Hres.
  pose proof (aroundAll_subsumes_kinds (kindOf sc p) (kindOf sc n)) as Hall.
  rewrite forallb_forall in Hall. specialize (Hall (name, table) Hin).
  cbn [snd] in Hall. rewrite Hres in Hall. exact Hall.
Qed.

(** X5. Wherever a rule of the plugin, deprecated or not, asks for a blank
    line between two readable statements, [padding-around-all] asks for
    one as well. *)
Theorem aroundAll_subsumes_every_rule (name : string) (table : list Config)
  (p n : Node) (sc : SourceCode) :
  In (name, table) Index.rules ->
  readable sc p = true -> readable sc n = true ->
  resolve p n table sc = Some PaddingType.Always ->
  resolve p n Index.aroundAll sc = Some PaddingType.Always.
Proof. apply rules_within_aroundAll. Qed.

Lemma aroundAll_subsumes_every_rule_witness :
  resolve Sample.fooCall Sample.describeCall Index.aroundAll Sample.source
  = Some PaddingType.Always.
Proof.
  apply (aroundAll_subsumes_every_rule "padding-before-describe-blocks"
           [ mkConfig PaddingType.Always (Single StatementType.Any)
               (Single StatementType.DescribeToken) ]
           Sample.fooCall Sample.describeCall Sample.source);
    try reflexivity.
  cbn. tauto.
Defined.

(** X6. Every rule that [configs.recommended] and [configs.strict] switch
    on is a rule of the plugin that is not deprecated; and wherever a rule
    of [recommended] asks for a blank line between two readable
    statements, the rule of [strict] does too. *)
Theorem configs_enable_current_rules (name : string) (severity : Z) :
  In (name, severity) (Index.recommended ++ Index.strict) ->
  exists rule table strictTable,
    name = ("jest-formatting/" ++ rule)%string /\
    Index.pluginRule name = Some table /\
    In (rule, table) Index.currentRules /\
    Index.pluginRule "jest-formatting/padding-around-all" = Some strictTable /\
    forall p n sc,
      readable sc p = true -> readable sc n = true ->
      resolve p n table sc = Some PaddingType.Always ->
      resolve p n strictTable sc = Some PaddingType.Always.
Proof.
  intros Hin.
  assert (Hrule : exists rule table,
             name = ("jest-formatting/" ++ rule)%string /\
             Index.pluginRule name = Some table /\
             In (rule, table) Index.currentRules).
  { cbn in Hin.
    repeat (destruct Hin as [Hin | Hin];
            [inversion Hin; subst; eexists; eexists;
             split; [reflexivity |]; split; [reflexivity |]; cbn; tauto |]).
    destruct Hin. }
  destruct Hrule as (rule & table & En & Ep & Hcur).
  exists rule, table, Index.aroundAll.
  split; [exact En |]. split; [exact Ep |]. split; [exact Hcur |].
  split; [reflexivity |].
  intros p n sc Hp Hn. apply (rules_within_aroundAll rule table).
  - unfold Index.rules. apply in_or_app. now left.
  - exact Hp.
  - exact Hn.
Qed.

Lemma configs_enable_current_rules_witness :
  exists rule table strictTable,
    "jest-formatting/padding-around-test-blocks"
    = ("jest-formatting/" ++ rule)%string /\
    Index.pluginRule "jest-formatting/padding-around-test-blocks" = Some table /\
    In (rule, table) Index.currentRules /\
    Index.pluginRule "jest-formatting/padding-around-all" = Some strictTable /\
    forall p n sc,
      readable sc p = true -> readable sc n = true ->
      resolve p n table sc = Some PaddingType.Always ->
      resolve p n strictTable sc = Some PaddingType.Always.
Proof.
  apply (configs_enable_current_rules
           "jest-formatting/padding-around-test-blocks" 2%Z).
  cbn. tauto.
Defined.

(** ** The scope tracker *)

Lemma depthFrom_upper (s : Scope) :
  depthFrom s = S match upper s with
                  | Some u => depthFrom u
                  | None => 0
                  end.
Proof. destruct s as [[u |] q]; reflexivity. Qed.

(** X7. The scope tracker is a stack. [exit] undoes [enter], whatever
    [prevNode] was set to in between; a scope starts without a previous
    statement; a statement that is set is the one that is read, and
    setting it changes neither the enclosing scopes nor the reports. *)
Theorem scope_tracker_is_a_stack (st : RuleState) (node : Node) :
  (st1 <- enter st ;; exit st1) = Some st /\
  (st1 <- enter st ;; st2 <- setPrevNode node st1 ;; exit st2) = Some st /\
  (st1 <- enter st ;; getPrevNode st1) = Some None /\
  (forall st1, enter st = Some st1 -> depth st1 = S (depth st)) /\
  (forall st1, exit st = Some st1 -> depth st = S (depth st1)) /\
  (forall st1, setPrevNode node st = Some st1 ->
     getPrevNode st1 = Some (Some node) /\
     exit st1 = exit st /\ depth st1 = depth st /\
     reports st1 = reports st).
Proof.
  split; [destruct st; reflexivity |].
  split; [destruct st; reflexivity |].
  split; [reflexivity |].
  split; [| split].
  - intros st1 E. inversion E. unfold depth. cbn [scope].
    rewrite depthFrom_upper. cbn [upper]. now destruct (scope st).
  - unfold exit, depth. intros st1. destruct (scope st) as [s |]; [| discriminate].
    intros E. inversion E. cbn [scope]. apply depthFrom_upper.
  - unfold setPrevNode, getPrevNode, exit, depth. intros st1.
    destruct (scope st) as [s |]; [| discriminate].
    intros E. inversion E. cbn [scope reports upper prevNode].
    repeat split. now rewrite !depthFrom_upper.
Qed.

Lemma scope_tracker_is_a_stack_witness :
  getPrevNode
    (mkState (Some (mkScope None (Some Sample.describeCall))) [])
  = Some (Some Sample.describeCall).
Proof.
  apply (proj2 (proj2 (proj2 (proj2 (proj2
           (scope_tracker_is_a_stack Sample.afterFoo Sample.describeCall)))))).
  reflexivity.
Defined.

(** ** Tables *)

Lemma firstMatch_app_none (a b : list Config) (p n : Node) (sc : SourceCode) :
  (forall c, In c a -> configMatches c p n sc = Some false) ->
  firstMatch (a ++ b) p n sc = firstMatch b p n sc.
Proof.
  induction a as [| c r IH]; intros Hnone; [reflexivity |].
  cbn [app firstMatch]. rewrite (Hnone c) by now left.
  apply IH. intros c' Hc'. apply Hnone. now right.
Qed.

Lemma firstMatch_app_some (a b : list Config) (p n : Node) (sc : SourceCode) :
  (forall c, In c a -> configMatches c p n sc <> None) ->
  (exists c, In c a /\ configMatches c p n sc = Some true) ->
  firstMatch (a ++ b) p n sc = firstMatch a p n sc.
Proof.
  induction a as [| c r IH]; intros Hdef (c0 & Hin & Hm); [destruct Hin |].
  cbn [app firstMatch].
  destruct (configMatches c p n sc) as [[|] |] eqn:Ec.
  - reflexivity.
  - apply IH; [intros c' Hc'; apply Hdef; now right |].
    destruct Hin as [-> | Hin]; [congruence | now exists c0].
  - reflexivity.
Qed.

Lemma existsb_permutation {A : Type} (f : A -> bool) (l l' : list A) :
  Permutation l l' -> existsb f l = existsb f l'.
Proof.
  induction 1 as [| x l l' _ IH | x y l | l l' l'' _ IH1 _ IH2]; cbn.
  - reflexivity.
  - now rewrite IH.
  - now destruct (f x), (f y).
  - now rewrite IH1.
Qed.

Lemma firstMatchKinds_uniform (policy : PaddingType.t) (l : list Config)
  (kp kn : option StatementType.t) :
  (forall c, In c l -> paddingType c = policy) ->
  firstMatchKinds l kp kn
  = if existsb (configMatchesKinds kp kn) l then policy else PaddingType.Any.
Proof.
  induction l as [| c r IH]; intros Hall; [reflexivity |].
  cbn [firstMatchKinds existsb].
  destruct (configMatchesKinds kp kn c); cbn [orb].
  - apply Hall. now left.
  - apply IH. intros c' Hc'. apply Hall. now right.
Qed.

(** ** The walk and its reports *)

Section WalkProperties.

Variable PaddingLineSequence : Type.
Variable getPaddingLineSequences :
  Node -> Node -> SourceCode -> list PaddingLineSequence.
Variable getActualLastToken : SourceCode -> Node -> Token.
Variable areTokensOnSameLine : NodeOrToken -> NodeOrToken -> bool.
Variable isValidParent : string -> bool.

Local Abbreviation alwaysFix :=
  (alwaysFix getActualLastToken areTokensOnSameLine).
Local Abbreviation firstTokenFiltered :=
  (firstTokenFiltered areTokensOnSameLine).
Local Abbreviation paddingAlwaysTester :=
  (paddingAlwaysTester PaddingLineSequence getPaddingLineSequences
     getActualLastToken areTokensOnSameLine).
Local Abbreviation paddingTesters :=
  (paddingTesters PaddingLineSequence getPaddingLineSequences
     getActualLastToken areTokensOnSameLine).
Local Abbreviation testPadding :=
  (testPadding PaddingLineSequence getPaddingLineSequences
     getActualLastToken areTokensOnSameLine).
Local Abbreviation verifyNode :=
  (verifyNode PaddingLineSequence getPaddingLineSequences
     getActualLastToken areTokensOnSameLine isValidParent).
Local Abbreviation enterNode :=
  (enterNode PaddingLineSequence getPaddingLineSequences
     getActualLastToken areTokensOnSameLine isValidParent).
Local Abbreviation traverse :=
  (traverse PaddingLineSequence getPaddingLineSequences
     getActualLastToken areTokensOnSameLine isValidParent).
Local Abbreviation traverseAll :=
  (traverseAll PaddingLineSequence getPaddingLineSequences
     getActualLastToken areTokensOnSameLine isValidParent).
Local Abbreviation reportedBy :=
  (reportedBy PaddingLineSequence getPaddingLineSequences
     getActualLastToken areTokensOnSameLine isValidParent).
Local Abbreviation validParentsOpenScopes :=
  (validParentsOpenScopes isValidParent).
Local Abbreviation adds :=
  (adds PaddingLineSequence getPaddingLineSequences
     getActualLastToken areTokensOnSameLine isValidParent).
Local Abbreviation ownStep :=
  (ownStep PaddingLineSequence getPaddingLineSequences
     getActualLastToken areTokensOnSameLine isValidParent).
Local Abbreviation scopeExact :=
  (scopeExact PaddingLineSequence getPaddingLineSequences
     getActualLastToken areTokensOnSameLine isValidParent).

Lemma alwaysFix_insertsLineBreaks p n sc :
  insertsLineBreaks (alwaysFix p n sc) = true.
Proof.
  unfold alwaysFix.
  destruct (firstTokenFiltered _ _) as [pt found].
  unfold insertsLineBreaks, insertTextAfter. cbn [fix_range text fst snd].
  rewrite Z.eqb_refl.
  now destruct (areTokensOnSameLine _ _).
Qed.

Lemma testPadding_adds p n ctx st st1 :
  testPadding p n ctx st = Some st1 ->
  st1 = st \/
  (resolve p n (configs ctx) (sourceCode ctx) = Some PaddingType.Always /\
   getPaddingLineSequences p n (sourceCode ctx) = [] /\
   st1 = report
           (mkReport n "Expected blank line before this statement."
              (Some (alwaysFix p n (sourceCode ctx)))) st).
Proof.
  rewrite (testPadding_resolve PaddingLineSequence getPaddingLineSequences
             getActualLastToken areTokensOnSameLine).
  destruct (resolve p n (configs ctx) (sourceCode ctx)) as [[|] |];
    [| | discriminate]; cbn [paddingTesters].
  - intros E. inversion E. now left.
  - unfold paddingAlwaysTester.
    destruct (getPaddingLineSequences p n (sourceCode ctx)) as [| x l] eqn:Eseq;
      cbn [List.length Nat.ltb Nat.leb]; intros E; inversion E.
    + right. repeat split.
    + now left.
Qed.

Lemma verifyNode_adds node ctx st st1 :
  verifyNode node ctx st = Some st1 ->
  exists added,
    reports st1 = reports st ++ added /\
    Forall (reportedBy ctx [node]) added /\
    List.length added <= 1.
Proof.
  destruct (parent (base node)) as [pt |] eqn:Ep;
    [| unfold verifyNode; rewrite Ep; discriminate].
  destruct (isValidParent pt) eqn:Ev.
  - destruct (scope st) as [s |] eqn:Es;
      [| unfold verifyNode, getPrevNode; rewrite Ep, Ev, Es; discriminate].
    rewrite (verifyNode_valid PaddingLineSequence getPaddingLineSequences
               getActualLastToken areTokensOnSameLine isValidParent
               _ _ _ _ _ Ep Ev Es).
    destruct (prevNode s) as [p |].
    + destruct (testPadding p node ctx st) as [st2 |] eqn:Et; [| discriminate].
      intros E. inversion E. cbn [reports].
      destruct (testPadding_adds _ _ _ _ _ Et) as [-> | (Hres & Hseq & ->)].
      * exists []. rewrite app_nil_r. repeat split; [constructor | cbn; lia].
      * eexists. split; [reflexivity |]. split; [| cbn; lia].
        constructor; [| constructor]. unfold reportedBy.
        cbn [report_node message report_fix].
        split; [now left |]. split; [reflexivity |].
        split; [now exists pt |].
        exists p, (alwaysFix p node (sourceCode ctx)).
        repeat split; try assumption. apply alwaysFix_insertsLineBreaks.
    + intros E. inversion E. cbn [reports].
      exists []. rewrite app_nil_r. repeat split; [constructor | cbn; lia].
  - rewrite (verifyNode_invalid PaddingLineSequence getPaddingLineSequences
               getActualLastToken areTokensOnSameLine isValidParent
               _ _ _ _ Ep Ev).
    intros E. inversion E.
    exists []. rewrite app_nil_r. repeat split; [constructor | cbn; lia].
Qed.

Lemma enter_reports st st1 : enter st = Some st1 -> reports st1 = reports st.
Proof. intros E. now inversion E. Qed.

Lemma exit_reports st st1 : exit st = Some st1 -> reports st1 = reports st.
Proof.
  unfold exit. destruct (scope st); [| discriminate]. intros E. now inversion E.
Qed.

Lemma leaveNode_reports node st st1 :
  leaveNode node st = Some st1 -> reports st1 = reports st.
Proof.
  unfold leaveNode.
  destruct (type node =? "Program"); [apply enter_reports |].
  destruct (type node =? "BlockStatement"); [apply exit_reports |].
  destruct (type node =? "SwitchStatement"); [apply exit_reports |].
  destruct (type node =? "SwitchCase"); [apply exit_reports |].
  intros E. now inversion E.
Qed.

Lemma enterNode_adds node ctx st st1 :
  enterNode node ctx st = Some st1 ->
  exists added,
    reports st1 = reports st ++ added /\
    Forall (reportedBy ctx [node]) added /\
    List.length added <= 1.
Proof.
  assert (Hnone : forall s s', reports s' = reports s ->
            exists added,
              reports s' = reports s ++ added /\
              Forall (reportedBy ctx [node]) added /\
              List.length added <= 1).
  { intros s s' E. exists []. rewrite app_nil_r.
    repeat split; [exact E | constructor | cbn; lia]. }
  assert (Hthen : forall s s' s'',
            verifyNode node ctx s = Some s' -> reports s'' = reports s' ->
            exists added,
              reports s'' = reports s ++ added /\
              Forall (reportedBy ctx [node]) added /\
              List.length added <= 1).
  { intros s s' s'' Ev E. destruct (verifyNode_adds _ _ _ _ Ev) as (a & Ea & H).
    exists a. split; [congruence | exact H]. }
  unfold enterNode. destruct (isStatement (type node)) eqn:Es.
  - destruct (verifyNode node ctx st) as [st0 |] eqn:E0; [| discriminate].
    destruct (type node =? "Program");
      [intros E; apply (Hthen _ _ _ E0), (enter_reports _ _ E) |].
    destruct (type node =? "BlockStatement");
      [intros E; apply (Hthen _ _ _ E0), (enter_reports _ _ E) |].
    destruct (type node =? "SwitchStatement");
      [intros E; apply (Hthen _ _ _ E0), (enter_reports _ _ E) |].
    destruct (String.eqb_spec (type node) "SwitchCase") as [Ety | _].
    + rewrite Ety in Es. discriminate Es.
    + intros E. inversion E. subst st1. now apply (Hthen _ _ _ E0).
  - destruct (type node =? "Program");
      [intros E; apply Hnone, (enter_reports _ _ E) |].
    destruct (type node =? "BlockStatement");
      [intros E; apply Hnone, (enter_reports _ _ E) |].
    destruct (type node =? "SwitchStatement");
      [intros E; apply Hnone, (enter_reports _ _ E) |].
    destruct (type node =? "SwitchCase").
    + destruct (verifyNode node ctx st) as [st0 |] eqn:E0; [| discriminate].
      intros E. apply (Hthen _ _ _ E0), (enter_reports _ _ E).
    + intros E. inversion E. now apply Hnone.
Qed.

Lemma nodes_children (n : Node) :
  nodes n = n :: flat_map nodes (children n).
Proof.
  destruct n as [b body | ty b cs]; cbn [nodes children flat_map];
    [now rewrite app_nil_r | reflexivity].
Qed.

Lemma reportedBy_incl ctx (v v' : list Node) r :
  incl v v' -> reportedBy ctx v r -> reportedBy ctx v' r.
Proof.
  intros Hi (Hin & H). split; [now apply Hi | exact H].
Qed.

Lemma adds_then ctx v1 v2 st st1 st2 :
  adds ctx v1 st st1 -> adds ctx v2 st1 st2 -> adds ctx (v1 ++ v2) st st2.
Proof.
  intros (a1 & E1 & F1 & L1) (a2 & E2 & F2 & L2). exists (a1 ++ a2).
  split; [now rewrite E2, E1, app_assoc |]. split.
  - apply Forall_app. split.
    + eapply Forall_impl; [| exact F1]. intros r.
      apply reportedBy_incl, incl_appl, incl_refl.
    + eapply Forall_impl; [| exact F2]. intros r.
      apply reportedBy_incl, incl_appr, incl_refl.
  - rewrite !length_app. lia.
Qed.

Lemma traverseAll_adds nodes0 ctx st st' :
  Forall (fun n => forall st st', traverse n ctx st = Some st' ->
                                  adds ctx (nodes n) st st') nodes0 ->
  traverseAll nodes0 ctx st = Some st' ->
  adds ctx (flat_map nodes nodes0) st st'.
Proof.
  intros Hall. revert st. induction Hall as [| x r Hx _ IH]; intros st.
  - intros E. inversion E. exists []. rewrite app_nil_r.
    repeat split; [constructor | cbn; lia].
  - cbn [traverseAll flat_map].
    destruct (traverse x ctx st) as [st1 |] eqn:E1; [| discriminate].
    intros E. apply (adds_then _ _ _ _ st1); [now apply Hx | now apply IH].
Qed.

Lemma traverse_adds node ctx st st' :
  traverse node ctx st = Some st' -> adds ctx (nodes node) st st'.
Proof.
  revert st st'.
  induction node as [b body IH | ty b cs IH] using Node_forall_ind;
    intros st st';
    rewrite (traverse_unfold PaddingLineSequence getPaddingLineSequences
               getActualLastToken areTokensOnSameLine isValidParent);
    rewrite nodes_children;
    (destruct (enterNode _ ctx st) as [st1 |] eqn:E1; [| discriminate]);
    (destruct (traverseAll _ ctx st1) as [st2 |] eqn:E2; [| discriminate]);
    intros E3; apply leaveNode_reports in E3;
    apply enterNode_adds in E1.
  - assert (H2 : adds ctx (flat_map nodes [body]) st1 st2)
      by (apply traverseAll_adds; [constructor; [exact IH | constructor] | exact E2]).
    destruct (adds_then ctx [LabeledStatement b body] _ st st1 st2 E1 H2)
      as (a & Ea & H).
    exists a. split; [congruence | exact H].
  - assert (H2 : adds ctx (flat_map nodes cs) st1 st2)
      by (apply traverseAll_adds; [exact IH | exact E2]).
    destruct (adds_then ctx [OtherNode ty b cs] _ st st1 st2 E1 H2)
      as (a & Ea & H).
    exists a. split; [congruence | exact H].
Qed.


Lemma firstMatch_policy (l : list Config) p n sc policy :
  firstMatch l p n sc = Some policy ->
  policy = PaddingType.Any \/ exists c, In c l /\ paddingType c = policy.
Proof.
  induction l as [| c r IH]; cbn [firstMatch].
  - intros E. inversion E. now left.
  - destruct (configMatches c p n sc) as [[|] |]; [| | discriminate].
    + intros E. inversion E. right. exists c. split; [now left | reflexivity].
    + intros E. destruct (IH E) as [-> | (c' & Hin & Hc)]; [now left |].
      right. exists c'. split; [now right | exact Hc].
Qed.

(** X9. With a table that has no rule of policy [Always], the empty table
    among them, the walk over any tree reports nothing. *)
Theorem table_without_always_is_silent node ctx st st' :
  (forall c, In c (configs ctx) -> paddingType c = PaddingType.Any) ->
  traverse node ctx st = Some st' ->
  reports st' = reports st.
Proof.
  intros Hany E. destruct (traverse_adds _ _ _ _ E) as (added & Ea & Hall & _).
  destruct added as [| r rest]; [now rewrite app_nil_r in Ea |].
  exfalso. apply Forall_inv in Hall.
  destruct Hall as (_ & _ & _ & p & f & Hres & _).
  unfold resolve in Hres. apply firstMatch_policy in Hres.
  destruct Hres as [Hres | (c & Hin & Hc)]; [discriminate |].
  apply in_rev in Hin. rewrite (Hany c Hin) in Hc. discriminate.
Qed.

(** X10. On entering the program, a block, a switch statement or a switch
    case the scope is fresh: it has no previous statement, and the first
    statement visited in it is never reported, whatever the table and
    whatever came before the scope was opened. *)
Theorem first_statement_of_scope_is_not_reported node child ctx st st1 :
  opensScope (type node) = true \/ type node = "Program" ->
  enterNode node ctx st = Some st1 ->
  getPrevNode st1 = Some None /\
  forall st2, verifyNode child ctx st1 = Some st2 -> reports st2 = reports st1.
Proof.
  intros Hty E.
  assert (Hfresh : exists st0, enter st0 = Some st1).
  { destruct Hty as [Ho | Ep].
    - rewrite (enterNode_scoped PaddingLineSequence getPaddingLineSequences
                 getActualLastToken areTokensOnSameLine isValidParent
                 _ _ _ Ho) in E.
      destruct (verifyNode node ctx st) as [st0 |]; [| discriminate].
      now exists st0.
    - unfold enterNode in E. rewrite Ep in E. cbn in E.
      exists st. exact E. }
  destruct Hfresh as (st0 & Een). inversion Een as [Est1].
  split; [reflexivity |].
  intros st2. unfold verifyNode.
  destruct (parent (base child)) as [pt |]; [| discriminate].
  destruct (negb (isValidParent pt)); [intros E2; now inversion E2 |].
  unfold getPrevNode, setPrevNode. cbn [scope prevNode].
  intros E2. now inversion E2.
Qed.

(** X11. Tables put one after the other: when no rule of the second table
    matches the pair, the first table alone decides; when a rule of the
    second table matches, and its rules can be tested, the second table
    alone decides. *)
Theorem testPadding_of_appended_tables t1 t2 p n sc st :
  ((forall c, In c t2 -> configMatches c p n sc = Some false) ->
   testPadding p n (mkContext sc (t1 ++ t2)) st
   = testPadding p n (mkContext sc t1) st) /\
  ((forall c, In c t2 -> configMatches c p n sc <> None) ->
   (exists c, In c t2 /\ configMatches c p n sc = Some true) ->
   testPadding p n (mkContext sc (t1 ++ t2)) st
   = testPadding p n (mkContext sc t2) st).
Proof.
  assert (Hsame : forall ta tb,
             resolve p n ta sc = resolve p n tb sc ->
             testPadding p n (mkContext sc ta) st
             = testPadding p n (mkContext sc tb) st).
  { intros ta tb E.
    rewrite !(testPadding_resolve PaddingLineSequence getPaddingLineSequences
                getActualLastToken areTokensOnSameLine).
    cbn [configs sourceCode]. rewrite E.
    destruct (resolve p n tb sc) as [[|] |]; reflexivity. }
  split.
  - intros Hnone. apply Hsame. unfold resolve. rewrite rev_app_distr.
    apply firstMatch_app_none. intros c Hc. apply Hnone. now apply in_rev.
  - intros Hdef (c & Hin & Hm). apply Hsame. unfold resolve.
    rewrite rev_app_distr. apply firstMatch_app_some.
    + intros c' Hc'. apply Hdef. now apply in_rev.
    + exists c. split; [now apply in_rev in Hin | exact Hm].
Qed.

(** X12. In a table whose rules all have the same policy the order of the
    rules does not matter for readable statements. *)
Theorem uniform_table_order_is_irrelevant policy t t' p n sc st :
  (forall c, In c t -> paddingType c = policy) ->
  Permutation t t' ->
  readable sc p = true -> readable sc n = true ->
  resolve p n t sc = resolve p n t' sc /\
  testPadding p n (mkContext sc t) st = testPadding p n (mkContext sc t') st.
Proof.
  intros Hall Hperm Hp Hn.
  assert (Hall' : forall c, In c t' -> paddingType c = policy).
  { intros c Hc. apply Hall. apply (Permutation_in _ (Permutation_sym Hperm) Hc). }
  assert (E : resolve p n t sc = resolve p n t' sc).
  { rewrite !(resolve_kind sc p n _ Hp Hn). f_equal.
    rewrite (firstMatchKinds_uniform policy (rev t)),
      (firstMatchKinds_uniform policy (rev t')).
    - rewrite (existsb_permutation _ (rev t) (rev t')); [reflexivity |].
      apply (Permutation_trans (Permutation_sym (Permutation_rev t))).
      apply (Permutation_trans Hperm). apply Permutation_rev.
    - intros c Hc. apply Hall'. now apply in_rev.
    - intros c Hc. apply Hall. now apply in_rev. }
  split; [exact E |].
  rewrite !(testPadding_resolve PaddingLineSequence getPaddingLineSequences
              getActualLastToken areTokensOnSameLine).
  cbn [configs sourceCode]. rewrite E.
  destruct (resolve p n t' sc) as [[|] |]; reflexivity.
Qed.

(** X13. The fix inserts at the end of a token: the actual last token of
    the previous node, or a token or comment of the file that lies between
    that token and the next node, and then not beyond the start of the
    next node. *)
Theorem alwaysFix_inserts_at_a_token_end p n sc :
  exists token,
    fix_range (alwaysFix p n sc)
    = (snd (tok_range token), snd (tok_range token)) /\
    (token = getActualLastToken sc p \/
     (In token (tokensAndComments sc) /\
      (snd (tok_range (getActualLastToken sc p)) <= fst (tok_range token))%Z /\
      (snd (tok_range token) <= fst (range (base n)))%Z)).
Proof.
  set (p0 := getActualLastToken sc p).
  set (between := tokensBetween sc (ofToken p0) (ofNode n)).
  destruct (firstTokenFiltered_split areTokensOnSameLine between p0)
    as (skipped & rest & Eb & _ & Ef & _).
  exists (last skipped p0). split.
  - unfold alwaysFix. fold p0. fold between. rewrite Ef. reflexivity.
  - destruct (last_default_or_in skipped p0) as [[_ El] | [_ Hin]];
      [now left | right].
    assert (Hb : In (last skipped p0) between)
      by (rewrite Eb; apply in_or_app; now left).
    unfold between, tokensBetween in Hb. apply filter_In in Hb.
    destruct Hb as [Hts Hr]. unfold insideRange in Hr.
    cbn [fst snd rangeOf] in Hr. apply andb_prop in Hr.
    destruct Hr as [H1 H2]. apply Z.leb_le in H1, H2. auto.
Qed.

Lemma depth_enclosing (a b : RuleState) :
  enclosing a = enclosing b -> depth a = depth b.
Proof.
  unfold enclosing, depth.
  destruct (scope a) as [sa |], (scope b) as [sb |]; try discriminate;
    [| reflexivity].
  intros E. inversion E as [Eu]. now rewrite !depthFrom_upper, Eu.
Qed.

(** X14. The walk over a subtree below the root, with everything nested in
    it, pops as many scopes as it pushes: the depth of the scope stack
    after it is the depth before it. *)
Theorem subtree_walk_is_balanced node ctx st st' :
  belowRoot node = true ->
  traverse node ctx st = Some st' ->
  depth st' = depth st.
Proof.
  intros Hb E. apply depth_enclosing.
  now apply (traverse_enclosing PaddingLineSequence getPaddingLineSequences
               getActualLastToken areTokensOnSameLine isValidParent
               node ctx st st').
Qed.

(** *** Adjacent statements *)

Lemma opensScope_visited (ty : string) :
  opensScope ty = true -> isStatement ty || (ty =? "SwitchCase") = true.
Proof.
  unfold opensScope. intros Ho.
  destruct (String.eqb_spec ty "BlockStatement") as [E | _];
    [rewrite E; reflexivity |].
  destruct (String.eqb_spec ty "SwitchStatement") as [E | _];
    [rewrite E; reflexivity |].
  cbn [orb] in Ho. rewrite Ho. apply orb_true_r.
Qed.

Lemma enterNode_plain node ctx st :
  (type node =? "Program") = false -> opensScope (type node) = false ->
  enterNode node ctx st
  = if isStatement (type node) || (type node =? "SwitchCase")
    then verifyNode node ctx st else Some st.
Proof.
  unfold enterNode, opensScope. intros Hp Ho. rewrite Hp.
  destruct (type node =? "BlockStatement"); [discriminate Ho |].
  destruct (type node =? "SwitchStatement"); [discriminate Ho |].
  destruct (type node =? "SwitchCase"); [discriminate Ho |].
  rewrite orb_false_r.
  destruct (isStatement (type node)); [| reflexivity].
  now destruct (verifyNode node ctx st).
Qed.

Lemma parentIs_parent (ty : string) (c : Node) :
  parentIs ty c = true -> parent (base c) = Some ty.
Proof.
  unfold parentIs. destruct (parent (base c)) as [pt |]; [| discriminate].
  intros E. apply String.eqb_eq in E. now subst.
Qed.

Lemma linked_children (n c : Node) :
  linked n = true -> In c (children n) ->
  parentIs (type n) c = true /\ linked c = true.
Proof.
  destruct n as [b body | ty b cs]; cbn [linked children type]; intros Hl Hin.
  - destruct Hin as [<- | []]. now apply andb_prop.
  - rewrite forallb_forall in Hl. apply andb_prop. now apply Hl.
Qed.

Lemma validParentsOpenScopes_here (n : Node) :
  validParentsOpenScopes n = true ->
  opensScope (type n) = false -> isValidParent (type n) = false.
Proof.
  unfold validParentsOpenScopes. rewrite nodes_children. cbn [forallb].
  intros H Ho. apply andb_prop in H. destruct H as [H _].
  rewrite Ho, orb_false_r in H. now destruct (isValidParent (type n)).
Qed.

Lemma validParentsOpenScopes_children (n c : Node) :
  validParentsOpenScopes n = true -> In c (children n) ->
  validParentsOpenScopes c = true.
Proof.
  unfold validParentsOpenScopes. rewrite (nodes_children n). cbn [forallb].
  intros H Hin. apply andb_prop in H. destruct H as [_ H].
  rewrite forallb_forall in *. intros m Hm. apply H.
  apply in_flat_map. now exists c.
Qed.

Lemma belowRoot_child (n c : Node) :
  belowRoot n = true -> In c (children n) -> belowRoot c = true.
Proof.
  intros Hb Hin. apply belowRoot_children in Hb.
  rewrite forallb_forall in Hb. now apply Hb.
Qed.

Lemma traverseAll_scope_kept cs ctx st st' ty :
  Forall scopeExact cs ->
  (forall c, In c cs ->
     belowRoot c = true /\ linked c = true /\
     validParentsOpenScopes c = true /\ parent (base c) = Some ty) ->
  isValidParent ty = false ->
  traverseAll cs ctx st = Some st' ->
  scope st' = scope st.
Proof.
  intros Hall. revert st. induction Hall as [| c r Hc _ IH]; intros st Hcs Hinv.
  - intros E. now inversion E.
  - cbn [traverseAll].
    destruct (traverse c ctx st) as [st1 |] eqn:E1; [| discriminate].
    intros E.
    rewrite (IH st1 (fun c' Hc' => Hcs c' (or_intror Hc')) Hinv E).
    destruct (Hcs c (or_introl eq_refl)) as (Hb & Hl & Hv & Hpar).
    destruct (Hc ctx st st1 Hb Hl Hv E1) as (st0 & E0 & Es).
    rewrite Es. unfold ownStep in E0.
    destruct (isStatement (type c) || (type c =? "SwitchCase"));
      [| now inversion E0].
    rewrite (verifyNode_invalid PaddingLineSequence getPaddingLineSequences
               getActualLastToken areTokensOnSameLine isValidParent
               _ _ _ _ Hpar Hinv) in E0.
    now inversion E0.
Qed.

Lemma traverse_scope_exact node : scopeExact node.
Proof.
  assert (Hstep : forall n, Forall scopeExact (children n) -> scopeExact n).
  { intros n Hcs ctx st st' Hb Hl Hv Etr.
    pose proof (belowRoot_type _ Hb) as Hp.
    destruct (opensScope (type n)) eqn:Ho.
    - destruct (scoped_walk_keeps_outer_scope PaddingLineSequence
                  getPaddingLineSequences getActualLastToken
                  areTokensOnSameLine isValidParent
                  n ctx st st' Hb Ho Etr) as (st1 & E1 & Es).
      exists st1. unfold ownStep. now rewrite (opensScope_visited _ Ho).
    - rewrite (traverse_unfold PaddingLineSequence getPaddingLineSequences
                 getActualLastToken areTokensOnSameLine isValidParent) in Etr.
      rewrite (enterNode_plain _ _ _ Hp Ho) in Etr. fold (ownStep n ctx st) in Etr.
      destruct (ownStep n ctx st) as [st1 |]; [| discriminate].
      exists st1. split; [reflexivity |].
      destruct (traverseAll (children n) ctx st1) as [st2 |] eqn:E2;
        [| discriminate].
      rewrite (leaveNode_shape _ _ Hp), Ho in Etr. inversion Etr. subst st'.
      apply (traverseAll_scope_kept (children n) ctx st1 st2 (type n) Hcs);
        [| | exact E2].
      + intros c Hc. destruct (linked_children _ _ Hl Hc) as [Hpar Hlc].
        split; [now apply (belowRoot_child n) |]. split; [exact Hlc |].
        split; [now apply (validParentsOpenScopes_children n) |].
        now apply parentIs_parent.
      + now apply validParentsOpenScopes_here. }
  induction node as [b body IH | ty b cs IH] using Node_forall_ind;
    apply Hstep; cbn [children]; [constructor; [exact IH | constructor] | exact IH].
Qed.

(** X15. Adjacency. A statement with a valid parent that has been walked,
    with all that is nested in it, is the previous statement of its scope:
    the next statement of the list is tested against it and against no
    statement inside it or before it. The tree is one the host has linked,
    in which a node whose type is a valid parent opens a scope. *)
Theorem walked_statement_is_the_previous_one node ctx st st' pt :
  belowRoot node = true -> linked node = true ->
  validParentsOpenScopes node = true ->
  parent (base node) = Some pt -> isValidParent pt = true ->
  isStatement (type node) || (type node =? "SwitchCase") = true ->
  traverse node ctx st = Some st' ->
  getPrevNode st' = Some (Some node) /\
  enclosing st' = enclosing st /\
  forall next pt',
    parent (base next) = Some pt' -> isValidParent pt' = true ->
    verifyNode next ctx st'
    = (st2 <- testPadding node next ctx st' ;; setPrevNode next st2).
Proof.
  intros Hb Hl Hv Hpar Hval Hvis Etr.
  destruct (traverse_scope_exact node ctx st st' Hb Hl Hv Etr) as (st1 & E1 & Es).
  unfold ownStep in E1. rewrite Hvis in E1.
  assert (Hprev : getPrevNode st' = Some (Some node)).
  { unfold getPrevNode. rewrite Es.
    destruct (scope st) as [s |] eqn:Escope.
    - rewrite (verifyNode_valid PaddingLineSequence getPaddingLineSequences
                 getActualLastToken areTokensOnSameLine isValidParent
                 _ _ _ _ _ Hpar Hval Escope) in E1.
      destruct (match prevNode s with Some _ => _ | None => _ end);
        [| discriminate].
      now inversion E1.
    - unfold verifyNode, getPrevNode in E1. rewrite Hpar, Hval, Escope in E1.
      discriminate. }
  split; [exact Hprev |]. split.
  - now apply (traverse_enclosing PaddingLineSequence getPaddingLineSequences
                 getActualLastToken areTokensOnSameLine isValidParent
                 node ctx st st').
  - intros next pt' Hpar' Hval'. unfold verifyNode.
    now rewrite Hpar', Hval', Hprev.
Qed.

(** X16. No [TypeError] on the trees of a parser: inside a scope, the
    walk over a subtree in which every statement and switch case has a
    parent and, where its parent is valid, a first token that can be read,
    runs to its end, and leaves a state from which the walk can go on. *)
Theorem walk_of_parsed_tree_returns node ctx st :
  belowRoot node = true ->
  walkable isValidParent (sourceCode ctx) node = true ->
  walking (sourceCode ctx) st = true ->
  exists st', traverse node ctx st = Some st' /\
              walking (sourceCode ctx) st' = true.
Proof.
  apply (traverse_returns PaddingLineSequence getPaddingLineSequences
           getActualLastToken areTokensOnSameLine isValidParent).
Qed.

End WalkProperties.

(** ** The rule on the sample file, again *)

Section MoreOnSample.

Import Sample.

Local Abbreviation alwaysFix :=
  (alwaysFix AstUtils.getActualLastToken AstUtils.areTokensOnSameLine).
Local Abbreviation testPadding :=
  (testPadding AstUtils.PaddingLineSequence
     AstUtils.getPaddingLineSequences AstUtils.getActualLastToken
     AstUtils.areTokensOnSameLine).
Local Abbreviation verifyNode :=
  (verifyNode AstUtils.PaddingLineSequence
     AstUtils.getPaddingLineSequences AstUtils.getActualLastToken
     AstUtils.areTokensOnSameLine AstUtils.isValidParent).
Local Abbreviation enterNode :=
  (enterNode AstUtils.PaddingLineSequence
     AstUtils.getPaddingLineSequences AstUtils.getActualLastToken
     AstUtils.areTokensOnSameLine AstUtils.isValidParent).
Local Abbreviation traverse :=
  (traverse AstUtils.PaddingLineSequence
     AstUtils.getPaddingLineSequences AstUtils.getActualLastToken
     AstUtils.areTokensOnSameLine AstUtils.isValidParent).
Local Abbreviation reportedBy :=
  (reportedBy AstUtils.PaddingLineSequence
     AstUtils.getPaddingLineSequences AstUtils.getActualLastToken
     AstUtils.areTokensOnSameLine AstUtils.isValidParent).

Example traverse_program : traverse program context initialState = Some afterProgram.
Proof. reflexivity. Qed.


Lemma table_without_always_is_silent_witness :
  reports (mkState (scope afterProgram) []) = reports initialState.
Proof.
  apply (table_without_always_is_silent
           AstUtils.PaddingLineSequence AstUtils.getPaddingLineSequences
           AstUtils.getActualLastToken AstUtils.areTokensOnSameLine
           AstUtils.isValidParent program (mkContext source [])
           initialState (mkState (scope afterProgram) [])).
  - intros c [].
  - reflexivity.
Defined.

Lemma first_statement_of_scope_is_not_reported_witness :
  getPrevNode inProgram = Some None /\
  forall st2, verifyNode describeCall context inProgram = Some st2 ->
              reports st2 = reports inProgram.
Proof.
  apply (first_statement_of_scope_is_not_reported
           AstUtils.PaddingLineSequence AstUtils.getPaddingLineSequences
           AstUtils.getActualLastToken AstUtils.areTokensOnSameLine
           AstUtils.isValidParent program describeCall context
           initialState inProgram).
  - right. reflexivity.
  - reflexivity.
Defined.

Lemma testPadding_of_appended_tables_witness :
  testPadding fooCall describeCall
    (mkContext source (beforeDescribe ++ Index.expect)) afterFoo
  = testPadding fooCall describeCall (mkContext source beforeDescribe) afterFoo.
Proof.
  apply (proj1 (testPadding_of_appended_tables
                  AstUtils.PaddingLineSequence AstUtils.getPaddingLineSequences
                  AstUtils.getActualLastToken AstUtils.areTokensOnSameLine
                  beforeDescribe Index.expect fooCall describeCall source
                  afterFoo)).
  intros c [<- | [<- | [<- | []]]]; reflexivity.
Defined.

Lemma uniform_table_order_is_irrelevant_witness :
  resolve fooCall describeCall Index.describe source
  = resolve fooCall describeCall (rev Index.describe) source /\
  testPadding fooCall describeCall (mkContext source Index.describe) afterFoo
  = testPadding fooCall describeCall (mkContext source (rev Index.describe))
      afterFoo.
Proof.
  apply (uniform_table_order_is_irrelevant
           AstUtils.PaddingLineSequence AstUtils.getPaddingLineSequences
           AstUtils.getActualLastToken AstUtils.areTokensOnSameLine
           PaddingType.Always Index.describe (rev Index.describe)
           fooCall describeCall source afterFoo).
  - intros c [<- | [<- | []]]; reflexivity.
  - apply Permutation_rev.
  - reflexivity.
  - reflexivity.
Defined.

(** The walk over the [if] pushes a scope at its block and pops it again. *)
Lemma subtree_walk_is_balanced_witness :
  traverse ifStatement context afterFoo
  = Some (mkState (Some (mkScope None (Some ifStatement))) []) /\
  depth (mkState (Some (mkScope None (Some ifStatement))) [])
  = depth afterFoo.
Proof.
  split; [reflexivity |].
  apply (subtree_walk_is_balanced
           AstUtils.PaddingLineSequence AstUtils.getPaddingLineSequences
           AstUtils.getActualLastToken AstUtils.areTokensOnSameLine
           AstUtils.isValidParent ifStatement context afterFoo
           (mkState (Some (mkScope None (Some ifStatement))) []));
    reflexivity.
Defined.

(** After the walk over the [if] with its block the previous statement is
    the [if], not the call inside the block. *)
Lemma walked_statement_is_the_previous_one_witness :
  getPrevNode (mkState (Some (mkScope None (Some ifStatement))) [])
  = Some (Some ifStatement) /\
  enclosing (mkState (Some (mkScope None (Some ifStatement))) [])
  = enclosing afterFoo /\
  forall next pt',
    parent (base next) = Some pt' -> AstUtils.isValidParent pt' = true ->
    verifyNode next context
      (mkState (Some (mkScope None (Some ifStatement))) [])
    = (st2 <- testPadding ifStatement next context
                (mkState (Some (mkScope None (Some ifStatement))) []) ;;
       setPrevNode next st2).
Proof.
  apply (walked_statement_is_the_previous_one
           AstUtils.PaddingLineSequence AstUtils.getPaddingLineSequences
           AstUtils.getActualLastToken AstUtils.areTokensOnSameLine
           AstUtils.isValidParent ifStatement context afterFoo
           (mkState (Some (mkScope None (Some ifStatement))) []) "Program");
    reflexivity.
Defined.

Lemma walk_of_parsed_tree_returns_witness :
  exists st', traverse ifStatement context afterFoo = Some st' /\
              walking (sourceCode context) st' = true.
Proof.
  apply (walk_of_parsed_tree_returns
           AstUtils.PaddingLineSequence AstUtils.getPaddingLineSequences
           AstUtils.getActualLastToken AstUtils.areTokensOnSameLine
           AstUtils.isValidParent ifStatement context afterFoo);
    reflexivity.
Defined.

End MoreOnSample.
